(** * releaser: semantic versions, conventional commits and the changelog

    Shallow embedding of [releaser.py].

    Python [str] values are modelled as [string], a sequence of 8-bit
    characters; the one non-ASCII text of the script, the title of the
    changelog, is held as its UTF-8 bytes and is only ever copied to the
    output.  The character classes of the two patterns are the ASCII ones:
    the model is that of the script on ASCII input (Python's "\d" and "\w"
    also accept the digits and letters of other scripts, and [int] converts
    such digits).  The statements that say which texts the two patterns
    accept are therefore made for ASCII text, [ascii_text].

    Python integers are modelled by [N]; [int] and [str] are the unbounded
    conversions, where CPython by default refuses to convert more than
    [int_max_str_digits] digits; the statements that would meet that limit
    bound the length of the text.  Exceptions are values of [exn] carried by [result], and a
    Python [None] is the [None] of an [option].  The repository object of
    GitPython is modelled by what the script reads from it: the list of tags
    and the commits of the branch, newest first.  The files are modelled by
    their contents, read in text mode; [pre_check], the changelog directory
    and the confirmation prompt are outside the model. *)

From Stdlib Require Import Bool Arith Lia List NArith.
From Stdlib Require Import Ascii String.
From Stdlib Require Import DecimalString DecimalN DecimalFacts.
From Stdlib Require Import Permutation Sorted OrderedTypeEx.
Import ListNotations.

Local Open Scope list_scope.
Local Open Scope string_scope.

(* ================================================================== *)
(** ** Characters, strings and the builtins the script uses *)

Definition LF : ascii := "010"%char.
Definition TAB : ascii := "009"%char.
Definition CR : ascii := "013"%char.
Definition nl : string := String LF "".

Definition between (lo hi c : ascii) : bool :=
  Nat.leb (nat_of_ascii lo) (nat_of_ascii c) && Nat.leb (nat_of_ascii c) (nat_of_ascii hi).

Definition is_char (a c : ascii) : bool := Ascii.eqb a c.
Definition is_digit (c : ascii) : bool := between "0" "9" c.
Definition is_nonzero_digit (c : ascii) : bool := between "1" "9" c.
Definition is_alpha (c : ascii) : bool := between "a" "z" c || between "A" "Z" c.

(** The classes "[a-zA-Z-]" and "[0-9a-zA-Z-]" *)
Definition is_letter_or_hyphen (c : ascii) : bool := is_alpha c || is_char "-" c.
Definition is_ident_char (c : ascii) : bool := is_digit c || is_alpha c || is_char "-" c.

(** The class "\w" *)
Definition is_word (c : ascii) : bool := is_alpha c || is_digit c || is_char "_" c.

(** [.] under [re.DOTALL] *)
Definition any_char (c : ascii) : bool := true.

Fixpoint forallb_str (p : ascii -> bool) (s : string) : bool :=
  match s with
  | EmptyString => true
  | String c s' => p c && forallb_str p s'
  end.

Fixpoint existsb_str (p : ascii -> bool) (s : string) : bool :=
  match s with
  | EmptyString => false
  | String c s' => p c || existsb_str p s'
  end.

(** The characters of ASCII, and the texts made of them only: on these the
    classes above are those of Python's [re]. *)
Definition is_ascii_char (c : ascii) : bool := Nat.ltb (nat_of_ascii c) 128.

Definition ascii_text (s : string) : Prop := forallb_str is_ascii_char s = true.

Fixpoint rev_str (s : string) : string :=
  match s with
  | EmptyString => EmptyString
  | String c s' => rev_str s' ++ String c ""
  end.

(** [s.lstrip(chars)], [s.rstrip(chars)] and [s.strip(chars)], with the
    character set given as a predicate. *)
Fixpoint lstrip (p : ascii -> bool) (s : string) : string :=
  match s with
  | EmptyString => EmptyString
  | String c s' => if p c then lstrip p s' else s
  end.

Definition rstrip (p : ascii -> bool) (s : string) : string :=
  rev_str (lstrip p (rev_str s)).

Definition strip (p : ascii -> bool) (s : string) : string :=
  rstrip p (lstrip p s).

(** [s.replace(old, new)] for a one-character [old]. *)
Fixpoint replace (old : ascii) (new : string) (s : string) : string :=
  match s with
  | EmptyString => EmptyString
  | String c s' =>
      (if Ascii.eqb c old then new else String c "") ++ replace old new s'
  end.

(** [sep.join(xs)] is [String.concat sep xs]. *)
Definition join (sep : string) (xs : list string) : string := String.concat sep xs.

(** [int(s)] on a string of decimal digits; [None] stands for the
    [ValueError] raised on anything else (the empty string included). *)
Definition int (s : string) : option N :=
  option_map N.of_uint (NilZero.uint_of_string s).

(** [str(n)] / [f"{n}"] for a non-negative integer. *)
Definition str_of_int (n : N) : string :=
  NilZero.string_of_uint (N.to_uint n).

(** [sys.int_info.default_max_str_digits]: the number of digits beyond which
    CPython, unless configured otherwise, refuses [int(s)] and [str(n)]. *)
Definition int_max_str_digits : nat := 4300.

(** Python exceptions that the modelled code can raise. *)
Inductive exn : Type :=
| ValueError (msg : string)
| IndexError (msg : string).

Inductive result (A : Type) : Type :=
| Ok (a : A)
| Raise (e : exn).

Arguments Ok {A} a.
Arguments Raise {A} e.

Definition bind {A B : Type} (m : result A) (f : A -> result B) : result B :=
  match m with
  | Ok a => f a
  | Raise e => Raise e
  end.

Notation "x <- m ;; k" := (bind m (fun x => k))
  (at level 61, m at next level, right associativity).

Definition is_ok {A : Type} (m : result A) : bool :=
  match m with Ok _ => true | Raise _ => false end.

(* ================================================================== *)
(** ** The fragment of [re] the two patterns use

    A backtracking matcher with Python's priorities: alternatives are tried
    left to right, a greedy star tries one more iteration before stopping and
    a lazy star tries to stop first.  Capture groups are numbered as in the
    pattern; [Eol] is [$] without [re.MULTILINE] (end of the string, or just
    before a newline that ends the string); [Bol] is [^]. *)
Module Re.

Inductive regex : Type :=
| Chr (p : ascii -> bool)
| Eps
| Seq (r1 r2 : regex)
| Alt (r1 r2 : regex)
| Star (r : regex)
| LazyStar (r : regex)
| Group (n : nat) (r : regex)
| Bol
| Eol.

(** [r?], [r+] and a literal word *)
Definition Opt (r : regex) : regex := Alt r Eps.
Definition Plus (r : regex) : regex := Seq r (Star r).
Fixpoint Lit (w : string) : regex :=
  match w with
  | EmptyString => Eps
  | String c w' => Seq (Chr (is_char c)) (Lit w')
  end.

(** The groups of a match object: [m.group(n)], [None] for a group that
    did not take part in the match. *)
Definition groups : Type := nat -> option string.
Definition no_groups : groups := fun _ => None.
Definition set_group (n : nat) (w : string) (g : groups) : groups :=
  fun i => if Nat.eqb i n then Some w else g i.

Definition cont : Type := string -> groups -> option groups.

Definition orelse (a b : option groups) : option groups :=
  match a with
  | Some x => Some x
  | None => b
  end.

(** The text consumed between the input [s] and its suffix [s']. *)
Definition consumed (s s' : string) : string :=
  substring 0 (length s - length s') s.

(** Iteration of [step]; every round has to consume input. *)
Fixpoint star_loop (greedy : bool) (step : string -> groups -> cont -> option groups)
         (k : cont) (fuel : nat) (s : string) (g : groups) : option groups :=
  match fuel with
  | O => k s g
  | S fuel' =>
      let again :=
        step s g (fun s' g' =>
                    if Nat.ltb (length s') (length s)
                    then star_loop greedy step k fuel' s' g'
                    else None) in
      if greedy then orelse again (k s g) else orelse (k s g) again
  end.

(** [exec total r s g k]: match [r] at the front of [s], the rest of an
    input of [total] characters, then continue with [k]. *)
Fixpoint exec (total : nat) (r : regex) (s : string) (g : groups) (k : cont)
  : option groups :=
  match r with
  | Chr p =>
      match s with
      | String c s' => if p c then k s' g else None
      | EmptyString => None
      end
  | Eps => k s g
  | Seq r1 r2 => exec total r1 s g (fun s' g' => exec total r2 s' g' k)
  | Alt r1 r2 => orelse (exec total r1 s g k) (exec total r2 s g k)
  | Star r' => star_loop true (exec total r') k (length s) s g
  | LazyStar r' => star_loop false (exec total r') k (length s) s g
  | Group n r' =>
      exec total r' s g (fun s' g' => k s' (set_group n (consumed s s') g'))
  | Bol => if Nat.eqb (length s) total then k s g else None
  | Eol =>
      match s with
      | EmptyString => k s g
      | String c EmptyString => if Ascii.eqb c LF then k s g else None
      | _ => None
      end
  end.

(** [pattern.match(s)] *)
Definition re_match (r : regex) (s : string) : option groups :=
  exec (length s) r s no_groups (fun _ g => Some g).

End Re.

Import Re.

(* ================================================================== *)
(** ** SemanticVersion *)

Module SemanticVersion.

Record t : Type := Build {
  major : N;
  minor : N;
  patch : N;
  prerelease : option string;
  build_metadata : option string
}.

(** The pattern "0|[1-9]\d*" *)
Definition numeric : regex :=
  Alt (Chr (is_char "0")) (Seq (Chr is_nonzero_digit) (Star (Chr is_digit))).

(** One prerelease identifier: "0|[1-9]\d*|\d*[a-zA-Z-][0-9a-zA-Z-]*" *)
Definition pre_ident : regex :=
  Alt (Chr (is_char "0"))
    (Alt (Seq (Chr is_nonzero_digit) (Star (Chr is_digit)))
         (Seq (Star (Chr is_digit))
              (Seq (Chr is_letter_or_hyphen) (Star (Chr is_ident_char))))).

(** The pattern "[0-9a-zA-Z-]+" *)
Definition build_ident : regex := Plus (Chr is_ident_char).

Definition dot : regex := Chr (is_char ".").

Definition prerelease_re : regex := Seq pre_ident (Star (Seq dot pre_ident)).
Definition buildmetadata_re : regex := Seq build_ident (Star (Seq dot build_ident)).

(** The expression from semver.org, as compiled at line 62. *)
Definition semver_re : regex :=
  Seq Bol
 (Seq (Group 1 numeric)
 (Seq dot
 (Seq (Group 2 numeric)
 (Seq dot
 (Seq (Group 3 numeric)
 (Seq (Opt (Seq (Chr (is_char "-")) (Group 4 prerelease_re)))
 (Seq (Opt (Seq (Chr (is_char "+")) (Group 5 buildmetadata_re)))
      Eol))))))).

Definition group_int (m : groups) (n : nat) : result N :=
  match m n with
  | Some w =>
      match int w with
      | Some v => Ok v
      | None => Raise (ValueError "invalid literal for int()")
      end
  | None => Raise (ValueError "invalid literal for int()")
  end.

(** [SemanticVersion.parse]: the fields the method stores in [self]. *)
Definition parse (str : string) : result t :=
  match re_match semver_re str with
  | None => Raise (ValueError "Invalid semantic version")
  | Some m =>
      major <- group_int m 1 ;;
      minor <- group_int m 2 ;;
      patch <- group_int m 3 ;;
      Ok (Build major minor patch (m 4) (m 5))
  end.

(** [SemanticVersion.__str__] *)
Definition to_str (self : t) : string :=
  let ver := str_of_int (major self) ++ "." ++ str_of_int (minor self)
             ++ "." ++ str_of_int (patch self) in
  let ver := match prerelease self with
             | Some p => ver ++ "-" ++ p
             | None => ver
             end in
  let ver := match build_metadata self with
             | Some b => ver ++ "+" ++ b
             | None => ver
             end in
  ver.

End SemanticVersion.

(* ================================================================== *)
(** ** ConventionalCommit *)

Module ConventionalCommit.

Record t : Type := Build {
  type : string;
  scope : string;
  description : string
}.

(** The pattern
    "^(?P<type>feat|fix|refactor|build)(?P<scope>\(?\w*?\)?):(?P<description>.*?)$"
    compiled with [re.DOTALL] *)
Definition semantic_re : regex :=
  Seq Bol
 (Seq (Group 1 (Alt (Lit "feat") (Alt (Lit "fix") (Alt (Lit "refactor") (Lit "build")))))
 (Seq (Group 2 (Seq (Opt (Chr (is_char "(")))
               (Seq (LazyStar (Chr is_word)) (Opt (Chr (is_char ")"))))))
 (Seq (Chr (is_char ":"))
 (Seq (Group 3 (LazyStar (Chr any_char)))
      Eol)))).

(** The characters stripped at line 122: a space and a newline *)
Definition space_or_newline (c : ascii) : bool := is_char " " c || is_char LF c.

(** Line 122 *)
Definition clean (d : string) : string :=
  replace LF " " (strip space_or_newline d).

Definition or_empty (o : option string) : string :=
  match o with Some w => w | None => "" end.

(** [ConventionalCommit.parse]; [None] is Python's [None].  The three
    groups take part in every match of [semantic_re], so the branches for a
    missing group are never taken. *)
Definition parse (str : string) : option t :=
  match re_match semantic_re str with
  | None => None
  | Some m =>
      Some (Build (or_empty (m 1)) (or_empty (m 2))
                  (match m 3 with
                   | Some d => clean d
                   | None => ""
                   end))
  end.

(** [ConventionalCommit.__str__] *)
Definition to_str (self : t) : string :=
  let cc := type self in
  let cc := if Nat.ltb 0 (length (scope self))
            then cc ++ "(" ++ scope self ++ ")"
            else cc in
  let cc := cc ++ ":" in
  let cc := cc ++ " " ++ description self in
  cc.

End ConventionalCommit.

(* ================================================================== *)
(** ** The repository as the script reads it, and the changelog *)

(** [args.release_type]: argparse admits exactly these three choices. *)
Inductive ReleaseType : Type := Major | Minor | Patch.

(** A [git.TagReference]: [r.name] and [r.commit.hexsha]. *)
Record TagReference : Type := {
  name : string;
  commit_hexsha : string
}.

(** A [git.Commit]: [commit.hexsha] and [commit.message]. *)
Record Commit : Type := {
  hexsha : string;
  message : string
}.

(** [repo.tags] (a list, in GitPython's order) and the commits that
    [repo.iter_commits()] yields, newest first. *)
Record Repo : Type := {
  tags : list TagReference;
  commits : list Commit
}.

Definition find_tag_by_name (repo : Repo) (name' : string) : option TagReference :=
  find (fun r => String.eqb (name r) name' || String.eqb (name r) ("v" ++ name'))
       (tags repo).

(** [list.pop()]: the last element, [IndexError] on an empty list. *)
Definition pop {A : Type} (l : list A) : result A :=
  match rev l with
  | x :: _ => Ok x
  | [] => Raise (IndexError "pop from empty list")
  end.

Definition last_tag (repo : Repo) : result TagReference :=
  pop (tags repo).

(** [commit.hexsha != sha], where [sha] may be Python's [None]. *)
Definition differs (h : string) (sha : option string) : bool :=
  match sha with
  | Some x => negb (String.eqb h x)
  | None => true
  end.

(** The generator [iter_commits_to], run to exhaustion over a source
    iterator: the commits it yields, and the part of the source it has
    not pulled when it stops. *)
Fixpoint iter_commits_to_from (source : list Commit) (sha : option string)
  : list Commit * list Commit :=
  match source with
  | [] => ([], [])
  | commit :: rest =>
      if differs (hexsha commit) sha
      then let (yielded, unread) := iter_commits_to_from rest sha in
           (commit :: yielded, unread)
      else ([], rest)
  end.

Definition iter_commits_to (repo : Repo) (sha : option string) : list Commit :=
  fst (iter_commits_to_from (commits repo) sha).

(** [sorted(xs, key=key)] for string keys.  [sorted] is stable; it is
    modelled by a stable insertion sort, which computes the same list. *)
Section Sorted.
Context {A : Type}.
Variable key : A -> string.

(** [x] goes in front of the first element whose key is not smaller. *)
Fixpoint insert_by (x : A) (l : list A) : list A :=
  match l with
  | [] => [x]
  | y :: l' =>
      if String.ltb (key y) (key x)
      then y :: insert_by x l'
      else x :: l
  end.

Fixpoint sorted (l : list A) : list A :=
  match l with
  | [] => []
  | x :: l' => insert_by x (sorted l')
  end.

(** [itertools.groupby(xs, key)], each group listed at once: maximal runs
    of neighbours with equal keys, each with the key of the run. *)
Fixpoint groupby (l : list A) : list (string * list A) :=
  match l with
  | [] => []
  | x :: l' =>
      match groupby l' with
      | (k, run) :: more =>
          if String.eqb (key x) k
          then (k, x :: run) :: more
          else (key x, [x]) :: (k, run) :: more
      | [] => [(key x, [x])]
      end
  end.
End Sorted.

Definition RawChangelog : Type := list (string * list ConventionalCommit.t).

(** The messages of the commits that parse as conventional commits, in the
    order of the commits (the loop at lines 179 to 184). *)
Fixpoint conventional (cs : list Commit) : list ConventionalCommit.t :=
  match cs with
  | [] => []
  | i :: cs' =>
      match ConventionalCommit.parse (message i) with
      | None => conventional cs'
      | Some cc => cc :: conventional cs'
      end
  end.

Definition change_log (repo : Repo) (cur_ver : SemanticVersion.t) : result RawChangelog :=
  r <- match find_tag_by_name repo (SemanticVersion.to_str cur_ver) with
       | Some r => Ok (Some r)
       | None => r <- last_tag repo ;; Ok (Some r)
       end ;;
  let init_sha := match r with
                  | Some r => Some (commit_hexsha r)
                  | None => None
                  end in
  let ccs := conventional (iter_commits_to repo init_sha) in
  let ccs := sorted ConventionalCommit.type ccs in
  Ok (groupby ConventionalCommit.type ccs).

(** The text that opens the document, before the version. *)
Definition title : string := "# 版本更新记录 ".

(** The body of the loop at lines 193 to 197. *)
Definition render_group (out : string) (td : string * list ConventionalCommit.t)
  : string :=
  let '(t, d) := td in
  let out := out ++ "## " ++ t ++ " " ++ nl in
  let out := out ++ nl in
  let out := out ++ join nl (map (fun i => "-. " ++ ConventionalCommit.description i) d) in
  out ++ nl ++ nl.

Definition render_basic (ver : SemanticVersion.t) (m : RawChangelog) : string :=
  let out := title ++ SemanticVersion.to_str ver ++ " " ++ nl ++ nl in
  fold_left render_group m out.

(** Lines 206 to 215: the update of [cur_ver] by release type. *)
Definition bump (cur_ver : SemanticVersion.t) (release_type : ReleaseType)
  : SemanticVersion.t :=
  let '(SemanticVersion.Build major minor patch prerelease build_metadata) := cur_ver in
  match release_type with
  | Major => SemanticVersion.Build (major + 1) 0 0 prerelease build_metadata
  | Minor => SemanticVersion.Build major (minor + 1) 0 prerelease build_metadata
  | Patch => SemanticVersion.Build major minor (patch + 1) prerelease build_metadata
  end.

(** [release], after [pre_check]: [version_file] is the text read from the
    version file; the result is the returned version and the text written
    to the changelog file.  The rebinding of [cur_ver] is the in-place
    update of the one version object. *)
Definition release (version_file : string) (release_type : ReleaseType) (repo : Repo)
  : result (SemanticVersion.t * string) :=
  cur_ver <- SemanticVersion.parse version_file ;;
  raw <- change_log repo cur_ver ;;
  let cur_ver := bump cur_ver release_type in
  let log := render_basic cur_ver raw in
  Ok (cur_ver, log).

(* ================================================================== *)
(** ** What the specification says, in its own terms

    These definitions follow the words of the specification, not the code;
    the theorems below compare the code with them. *)
Module Spec.

(** "0 or a digit sequence with no leading zero" *)
Definition numeric_identifier (w : string) : Prop :=
  w = "0" \/
  exists c w', w = String c w' /\ is_nonzero_digit c = true /\
               forallb_str is_digit w' = true.

(** A prerelease identifier: "either all-numeric with no leading zero, or
    containing a letter/hyphen", over alphanumerics and hyphens. *)
Definition prerelease_identifier (w : string) : Prop :=
  numeric_identifier w \/
  (forallb_str is_ident_char w = true /\ existsb_str is_letter_or_hyphen w = true).

(** A build identifier: alphanumerics and hyphens, leading zeros allowed. *)
Definition build_identifier (w : string) : Prop :=
  w <> "" /\ forallb_str is_ident_char w = true.

(** "a dot-separated sequence" of identifiers, at least one *)
Definition dotted (P : string -> Prop) (w : string) : Prop :=
  exists i rest, P i /\ Forall P rest /\ w = join "." (i :: rest).

Definition opt_holds (P : string -> Prop) (o : option string) : Prop :=
  match o with
  | Some w => P w
  | None => True
  end.

Definition suffix (sep : string) (o : option string) : string :=
  match o with
  | Some w => sep ++ w
  | None => ""
  end.

(** MAJOR.MINOR.PATCH, optional -PRERELEASE, optional +BUILDMETADATA; the
    whole string and nothing else. *)
Definition semver_grammar (s : string) : Prop :=
  exists major minor patch prerelease build,
    numeric_identifier major /\ numeric_identifier minor /\
    numeric_identifier patch /\
    opt_holds (dotted prerelease_identifier) prerelease /\
    opt_holds (dotted build_identifier) build /\
    s = major ++ "." ++ minor ++ "." ++ patch
        ++ suffix "-" prerelease ++ suffix "+" build.

(** The bump of section 4.1: prerelease and build metadata dropped. *)
Definition bump (v : SemanticVersion.t) (t : ReleaseType) : SemanticVersion.t :=
  match t with
  | Major => SemanticVersion.Build (SemanticVersion.major v + 1) 0 0 None None
  | Minor => SemanticVersion.Build (SemanticVersion.major v)
               (SemanticVersion.minor v + 1) 0 None None
  | Patch => SemanticVersion.Build (SemanticVersion.major v)
               (SemanticVersion.minor v) (SemanticVersion.patch v + 1) None None
  end.

(** Whitespace in the usual sense: space, tab, newline, carriage return,
    vertical tab and form feed. *)
Definition is_whitespace (c : ascii) : bool :=
  is_char " " c || between TAB CR c.

(** Section 4.2, post-processing, read with all whitespace trimmed. *)
Definition normalize_whitespace (raw : string) : string :=
  strip is_whitespace (replace LF " " raw).

(** The same with only spaces and newlines trimmed. *)
Definition normalize (raw : string) : string :=
  strip ConventionalCommit.space_or_newline (replace LF " " raw).

(** Section 4.2, serialization: category(scope): description, where the
    scope is the text between the parentheses. *)
Definition render (category scope description : string) : string :=
  category ++ (if Nat.ltb 0 (length scope) then "(" ++ scope ++ ")" else "")
           ++ ": " ++ description.

End Spec.

(* ================================================================== *)
(** ** The language of a pattern without groups and anchors *)

Inductive star_closure (L : string -> Prop) : string -> Prop :=
| star_stop : star_closure L ""
| star_more : forall u v, L u -> u <> "" -> star_closure L v ->
                          star_closure L (u ++ v).

Fixpoint lang (r : regex) (w : string) : Prop :=
  match r with
  | Chr p => exists c, w = String c "" /\ p c = true
  | Eps => w = ""
  | Seq r1 r2 => exists u v, w = u ++ v /\ lang r1 u /\ lang r2 v
  | Alt r1 r2 => lang r1 w \/ lang r2 w
  | Star r' => star_closure (lang r') w
  | LazyStar r' => star_closure (lang r') w
  | Group _ _ => False
  | Bol => False
  | Eol => False
  end.

Fixpoint plain (r : regex) : bool :=
  match r with
  | Chr _ | Eps => true
  | Seq r1 r2 | Alt r1 r2 => plain r1 && plain r2
  | Star r' | LazyStar r' => plain r'
  | Group _ _ | Bol | Eol => false
  end.

Definition has_type (t : string) (c : ConventionalCommit.t) : bool :=
  String.eqb (ConventionalCommit.type c) t.

Definition key_lt {A : Type} (x y : string * A) : Prop :=
  String.ltb (fst x) (fst y) = true.

(** The elements of key [t], and the order of the keys. *)
Definition has_key {A : Type} (key : A -> string) (t : string) (x : A) : bool :=
  String.eqb (key x) t.

Definition key_le {A : Type} (key : A -> string) (x y : A) : Prop :=
  String.ltb (key y) (key x) = false.

(** The text of the identifiers after the first: each with its dot. *)
Fixpoint dot_tail (rest : list string) : string :=
  match rest with
  | [] => ""
  | i :: rest' => "." ++ i ++ dot_tail rest'
  end.

(** What a successful match of [semver_re] looks like. *)
Definition semver_parts (s : string) (m : groups) : Prop :=
  exists major minor patch tail,
    Spec.numeric_identifier major /\ Spec.numeric_identifier minor /\
    Spec.numeric_identifier patch /\
    Spec.opt_holds (Spec.dotted Spec.prerelease_identifier) (m 4) /\
    Spec.opt_holds (Spec.dotted Spec.build_identifier) (m 5) /\
    (tail = "" \/ tail = nl) /\
    s = (major ++ "." ++ minor ++ "." ++ patch
         ++ Spec.suffix "-" (m 4) ++ Spec.suffix "+" (m 5)) ++ tail /\
    m 1 = Some major /\ m 2 = Some minor /\ m 3 = Some patch.

(** A repository for the examples: the current version 1.2.3 is tagged at
    c2, and a tag of the next version already sits at c4. *)
Definition example_repo : Repo :=
  {| tags := [Build_TagReference "1.2.3" "c2"; Build_TagReference "1.3.0" "c4"];
     commits := [Build_Commit "c6" "feat: x"; Build_Commit "c5" "fix: y";
                 Build_Commit "c4" "docs: z"; Build_Commit "c3" "fix(ui): w";
                 Build_Commit "c2" "feat: old"; Build_Commit "c1" "fix: older"] |}.

(** A history whose commits since the tag 1.0.0 are classified fix, feat,
    fix, build, in the order of the stream. *)
Definition example_history : Repo :=
  {| tags := [Build_TagReference "1.0.0" "c0"];
     commits := [Build_Commit "c4" "fix: a"; Build_Commit "c3" "feat: b";
                 Build_Commit "c2" "fix: c"; Build_Commit "c1" "build: d";
                 Build_Commit "c0" "feat: first"] |}.

(** The changelog of that history: the groups build, feat, fix. *)
Definition example_changelog : RawChangelog :=
  [("build", [ConventionalCommit.Build "build" "" "d"]);
   ("feat", [ConventionalCommit.Build "feat" "" "b"]);
   ("fix", [ConventionalCommit.Build "fix" "" "a";
            ConventionalCommit.Build "fix" "" "c"])].

(* ================================================================== *)
(** ** The version file, and notions used by the further properties *)

(** The files the script reads and writes: the text stored under each path,
    paths being compared as they are written. *)
Definition Files : Type := string -> option string.

(** What [open(fp, "w")] followed by [f.write(text)] leaves behind. *)
Definition write_file (fp text : string) (fs : Files) : Files :=
  fun p => if String.eqb p fp then Some text else fs p.

(** The outcome of a method that opens a file for reading. *)
Inductive opened (A : Type) : Type :=
| Ran (r : result A)
| FileNotFoundError.

Arguments Ran {A} r.
Arguments FileNotFoundError {A}.

(** [SemanticVersion.dump] *)
Definition dump (self : SemanticVersion.t) (fp : string) (fs : Files) : Files :=
  write_file fp (SemanticVersion.to_str self) fs.

(** What [f.read()] returns for a file opened with [open(fp, "r")]: in text
    mode every line ending, CR LF or a lone CR, is read as LF. *)
Fixpoint universal_newlines (s : string) : string :=
  match s with
  | EmptyString => EmptyString
  | String c s' =>
      if Ascii.eqb c CR
      then String LF (match s' with
                      | String c' s'' =>
                          if Ascii.eqb c' LF then universal_newlines s''
                          else universal_newlines s'
                      | EmptyString => EmptyString
                      end)
      else String c (universal_newlines s')
  end.

(** [SemanticVersion.load]: the fields it stores in [self]. *)
Definition load (fp : string) (fs : Files) : opened SemanticVersion.t :=
  match fs fp with
  | Some text => Ran (SemanticVersion.parse (universal_newlines text))
  | None => FileNotFoundError
  end.

Definition not_cr (c : ascii) : bool := negb (Ascii.eqb c CR).

(** The prerelease and build metadata of a version are, when present, dotted
    identifiers as [semver_re] admits them. *)
Definition wellformed (v : SemanticVersion.t) : Prop :=
  Spec.opt_holds (Spec.dotted Spec.prerelease_identifier) (SemanticVersion.prerelease v)
  /\ Spec.opt_holds (Spec.dotted Spec.build_identifier) (SemanticVersion.build_metadata v).

(** The order of versions by major, then minor, then patch. *)
Definition numbers_lt (v w : SemanticVersion.t) : Prop :=
  (SemanticVersion.major v < SemanticVersion.major w)%N \/
  (SemanticVersion.major v = SemanticVersion.major w /\
   ((SemanticVersion.minor v < SemanticVersion.minor w)%N \/
    (SemanticVersion.minor v = SemanticVersion.minor w /\
     (SemanticVersion.patch v < SemanticVersion.patch w)%N))).

(** [r] is empty or begins with a character outside [p]. *)
Definition stops (p : ascii -> bool) (r : string) : Prop :=
  match r with
  | EmptyString => True
  | String c _ => p c = false
  end.

(** The four types that [semantic_re] knows. *)
Definition categories : list string := ["feat"; "fix"; "refactor"; "build"].

(** The texts that the scope group of [semantic_re] admits: word characters,
    with or without a parenthesis in front and one behind. *)
Definition scope_shape (sc : string) : Prop :=
  exists o w c,
    sc = o ++ w ++ c /\ (o = "" \/ o = "(") /\
    forallb_str is_word w = true /\ (c = "" \/ c = ")").

Definition not_colon (c : ascii) : bool := negb (is_char ":" c).
Definition not_newline (c : ascii) : bool := negb (is_char LF c).

(** [piece] occurs in [doc]. *)
Definition contains (doc piece : string) : Prop :=
  exists before after, doc = before ++ piece ++ after.

(** The characters of a version text that are not the final newline. *)
Definition is_version_char (c : ascii) : bool := is_ident_char c || is_char "." c.

(** The characters allowed in the prerelease or in the build metadata. *)
Definition opt_chars (o : option string) : Prop :=
  Spec.opt_holds (fun w => forallb_str is_version_char w = true) o.

(** The tag whose commit bounds the changelog (lines 172 to 175): the tag
    found for the text of the version, else the last tag. *)
Definition boundary (repo : Repo) (cur_ver : SemanticVersion.t) : result TagReference :=
  match find_tag_by_name repo (SemanticVersion.to_str cur_ver) with
  | Some r => Ok r
  | None => last_tag repo
  end.

(** A tag that [find_tag_by_name] takes for [name']. *)
Definition tag_matches (name' : string) (r : TagReference) : Prop :=
  name r = name' \/ name r = "v" ++ name'.

(** The text that one round of the loop of [render_basic] appends. *)
Definition section_text (td : string * list ConventionalCommit.t) : string :=
  "## " ++ fst td ++ " " ++ nl ++ nl
  ++ join nl (map (fun i => "-. " ++ ConventionalCommit.description i) (snd td))
  ++ nl ++ nl.

(** The message of the commit that [commit_change] makes for a release
    (line 230). *)
Definition release_commit_message (ver : SemanticVersion.t) : string :=
  "chore: release " ++ SemanticVersion.to_str ver.

(* ================================================================== *)
(** ** Strings *)

Lemma app_nil_right (s : string) : s ++ "" = s.
Proof. induction s as [|c s IH]; simpl; congruence. Qed.

Lemma app_assoc_str (a b c : string) : (a ++ b) ++ c = a ++ (b ++ c).
Proof. induction a as [|x a IH]; simpl; congruence. Qed.

Lemma length_app_str (a b : string) : length (a ++ b) = length a + length b.
Proof. induction a as [|x a IH]; simpl; congruence. Qed.

Lemma substring_prefix (u s : string) : substring 0 (length u) (u ++ s) = u.
Proof.
  induction u as [|c u IH]; simpl.
  - destruct s; reflexivity.
  - now rewrite IH.
Qed.

Lemma consumed_app (u s : string) : consumed (u ++ s) s = u.
Proof.
  unfold consumed. rewrite length_app_str.
  replace (length u + length s - length s) with (length u) by lia.
  apply substring_prefix.
Qed.

(** Appends are brought to the right-nested form. *)
Ltac str_norm :=
  repeat (progress (rewrite ?app_assoc_str, ?app_nil_right; cbn [append])).

Lemma forallb_str_app (p : ascii -> bool) (a b : string) :
  forallb_str p (a ++ b) = forallb_str p a && forallb_str p b.
Proof.
  induction a as [|c a IH]; simpl; [reflexivity|].
  rewrite IH. now rewrite andb_assoc.
Qed.

Lemma existsb_str_app (p : ascii -> bool) (a b : string) :
  existsb_str p (a ++ b) = existsb_str p a || existsb_str p b.
Proof.
  induction a as [|c a IH]; simpl; [reflexivity|].
  rewrite IH. now rewrite orb_assoc.
Qed.

Lemma forallb_str_weaken (p q : ascii -> bool) (s : string) :
  (forall c, p c = true -> q c = true) ->
  forallb_str p s = true -> forallb_str q s = true.
Proof.
  intros Hpq. induction s as [|c s IH]; simpl; [reflexivity|].
  rewrite !andb_true_iff. intros [Hc Hs]. auto.
Qed.

(* ================================================================== *)
(** ** The matcher against the language of a pattern *)

Lemma orelse_some (a b : option groups) (res : groups) :
  orelse a b = Some res -> a = Some res \/ b = Some res.
Proof. destruct a; simpl; auto. Qed.

Lemma orelse_left (a b : option groups) : a <> None -> orelse a b <> None.
Proof. destruct a; simpl; [discriminate | congruence]. Qed.

Lemma orelse_right (a b : option groups) : b <> None -> orelse a b <> None.
Proof. destruct a; simpl; [discriminate | auto]. Qed.

Section StarLoop.
Variable L : string -> Prop.
Variable step : string -> groups -> cont -> option groups.

Hypothesis step_sound : forall s g k res,
    step s g k = Some res ->
    exists u s', s = u ++ s' /\ L u /\ k s' g = Some res.

Hypothesis step_complete : forall u s' g k,
    L u -> k s' g <> None -> step (u ++ s') g k <> None.

Lemma star_loop_sound greedy k fuel : forall s g res,
    star_loop greedy step k fuel s g = Some res ->
    exists u s', s = u ++ s' /\ star_closure L u /\ k s' g = Some res.
Proof.
  induction fuel as [|fuel IH]; intros s g res H; simpl in H.
  - exists "", s. repeat split; [constructor | exact H].
  - assert (Hcases :
      step s g (fun s' g' => if Nat.ltb (length s') (length s)
                             then star_loop greedy step k fuel s' g'
                             else None) = Some res \/ k s g = Some res).
    { destruct greedy; apply orelse_some in H; tauto. }
    destruct Hcases as [Hstep | Hk].
    + apply step_sound in Hstep. destruct Hstep as (u & s1 & -> & Hu & Hrest).
      destruct (Nat.ltb (length s1) (length (u ++ s1))) eqn:Hlt; [|discriminate].
      apply IH in Hrest. destruct Hrest as (v & s2 & -> & Hv & Hk).
      exists (u ++ v), s2. rewrite app_assoc_str. repeat split; [|exact Hk].
      constructor; auto.
      intros ->. simpl in Hlt. apply Nat.ltb_lt in Hlt. lia.
    + exists "", s. repeat split; [constructor | exact Hk].
Qed.

Lemma star_loop_complete greedy k : forall w,
    star_closure L w ->
    forall fuel s' g,
      length (w ++ s') <= fuel -> k s' g <> None ->
      star_loop greedy step k fuel (w ++ s') g <> None.
Proof.
  induction 1 as [|u v Hu Hne Hv IH]; intros fuel s' g Hfuel Hk.
  - simpl. destruct fuel as [|fuel]; simpl; [exact Hk|].
    destruct greedy; [apply orelse_right | apply orelse_left]; exact Hk.
  - destruct fuel as [|fuel].
    + rewrite !length_app_str in Hfuel.
      destruct u; [congruence | simpl in Hfuel; lia].
    + simpl.
      assert (Hagain :
        step ((u ++ v) ++ s') g
             (fun s1 g1 => if Nat.ltb (length s1) (length ((u ++ v) ++ s'))
                           then star_loop greedy step k fuel s1 g1
                           else None) <> None).
      { rewrite app_assoc_str. apply step_complete; [exact Hu|].
        assert (Hlt : Nat.ltb (length (v ++ s')) (length (u ++ v ++ s')) = true).
        { apply Nat.ltb_lt. rewrite (length_app_str u).
          destruct u; [congruence | simpl; lia]. }
        rewrite Hlt. apply IH; [|exact Hk].
        rewrite app_assoc_str, (length_app_str u) in Hfuel.
        destruct u; [congruence | simpl in Hfuel; lia]. }
      destruct greedy; [apply orelse_left | apply orelse_right]; exact Hagain.
Qed.
End StarLoop.

Lemma exec_sound total : forall r, plain r = true ->
  forall s g k res,
    exec total r s g k = Some res ->
    exists u s', s = u ++ s' /\ lang r u /\ k s' g = Some res.
Proof.
  induction r as [p| |r1 IH1 r2 IH2|r1 IH1 r2 IH2|r IH|r IH|n r IH| |];
    simpl; intros Hp s g k res H; try discriminate.
  - destruct s as [|c s]; [discriminate|].
    destruct (p c) eqn:Hc; [|discriminate].
    exists (String c ""), s. simpl. repeat split; [|exact H]. now exists c.
  - exists "", s. auto.
  - apply andb_true_iff in Hp. destruct Hp as [Hp1 Hp2].
    apply (IH1 Hp1) in H. destruct H as (u & s1 & -> & Hu & H).
    apply (IH2 Hp2) in H. destruct H as (v & s2 & -> & Hv & H).
    exists (u ++ v), s2. rewrite app_assoc_str. repeat split; [|exact H].
    now exists u, v.
  - apply andb_true_iff in Hp. destruct Hp as [Hp1 Hp2].
    apply orelse_some in H. destruct H as [H | H].
    + apply (IH1 Hp1) in H. destruct H as (u & s1 & -> & Hu & H).
      exists u, s1. auto.
    + apply (IH2 Hp2) in H. destruct H as (u & s1 & -> & Hu & H).
      exists u, s1. auto.
  - eapply star_loop_sound; [|exact H]. intros; now apply (IH Hp).
  - eapply star_loop_sound; [|exact H]. intros; now apply (IH Hp).
Qed.

Lemma exec_complete total : forall r, plain r = true ->
  forall u s' g k,
    lang r u -> k s' g <> None -> exec total r (u ++ s') g k <> None.
Proof.
  induction r as [p| |r1 IH1 r2 IH2|r1 IH1 r2 IH2|r IH|r IH|n r IH| |];
    simpl; intros Hp u s' g k Hu Hk; try discriminate.
  - destruct Hu as (c & -> & Hc). simpl. now rewrite Hc.
  - subst u. exact Hk.
  - apply andb_true_iff in Hp. destruct Hp as [Hp1 Hp2].
    destruct Hu as (a & b & -> & Ha & Hb). rewrite app_assoc_str.
    apply (IH1 Hp1); [exact Ha|]. now apply (IH2 Hp2).
  - apply andb_true_iff in Hp. destruct Hp as [Hp1 Hp2].
    destruct Hu as [Hu | Hu].
    + apply orelse_left. now apply (IH1 Hp1).
    + apply orelse_right. now apply (IH2 Hp2).
  - apply star_loop_complete with (L := lang r); auto.
  - apply star_loop_complete with (L := lang r); auto.
Qed.

(* ================================================================== *)
(** ** Character classes *)

Lemma is_char_eq (a c : ascii) : is_char a c = true <-> a = c.
Proof. unfold is_char. apply Ascii.eqb_eq. Qed.

Lemma between_spec (lo hi c : ascii) :
  between lo hi c = true <->
  nat_of_ascii lo <= nat_of_ascii c /\ nat_of_ascii c <= nat_of_ascii hi.
Proof. unfold between. now rewrite andb_true_iff, !Nat.leb_le. Qed.

Lemma nonzero_is_digit (c : ascii) : is_nonzero_digit c = true -> is_digit c = true.
Proof.
  unfold is_nonzero_digit, is_digit. rewrite !between_spec.
  change (nat_of_ascii "0") with 48. change (nat_of_ascii "1") with 49. lia.
Qed.

Lemma digit_is_ident (c : ascii) : is_digit c = true -> is_ident_char c = true.
Proof. unfold is_ident_char. now intros ->. Qed.

Lemma letter_is_ident (c : ascii) :
  is_letter_or_hyphen c = true -> is_ident_char c = true.
Proof.
  unfold is_ident_char, is_letter_or_hyphen.
  destruct (is_digit c), (is_alpha c), (is_char "-" c); simpl; auto.
Qed.

Lemma ident_cases (c : ascii) :
  is_ident_char c = true -> is_letter_or_hyphen c = false -> is_digit c = true.
Proof.
  unfold is_ident_char, is_letter_or_hyphen.
  destruct (is_digit c), (is_alpha c), (is_char "-" c); simpl; auto.
Qed.

(* ================================================================== *)
(** ** The sub-patterns of [semver_re] and the grammar of the specification *)

Lemma lang_star_chr (p : ascii -> bool) (w : string) :
  star_closure (lang (Chr p)) w <-> forallb_str p w = true.
Proof.
  split.
  - induction 1 as [|u v (c & -> & Hc) _ _ IH]; simpl; [reflexivity|].
    now rewrite Hc, IH.
  - induction w as [|c w IH]; simpl; [constructor|].
    rewrite andb_true_iff. intros [Hc Hw].
    change (String c w) with (String c "" ++ w).
    constructor; [now exists c | discriminate | auto].
Qed.

Lemma lang_numeric (w : string) :
  lang SemanticVersion.numeric w <-> Spec.numeric_identifier w.
Proof.
  unfold SemanticVersion.numeric, Spec.numeric_identifier. cbn [lang]. split.
  - intros [(c & -> & Hc) | (u & v & -> & (c & -> & Hc) & Hv)].
    + apply is_char_eq in Hc. subst c. now left.
    + right. exists c, v. apply lang_star_chr in Hv. auto.
  - intros [-> | (c & w' & -> & Hc & Hw)].
    + left. now exists "0"%char.
    + right. exists (String c ""), w'. repeat split.
      * now exists c.
      * now apply lang_star_chr.
Qed.

Lemma split_at_letter (w : string) :
  forallb_str is_ident_char w = true ->
  existsb_str is_letter_or_hyphen w = true ->
  exists d l rest,
    w = d ++ String l rest /\ forallb_str is_digit d = true /\
    is_letter_or_hyphen l = true /\ forallb_str is_ident_char rest = true.
Proof.
  induction w as [|c w IH]; simpl; [discriminate|].
  rewrite andb_true_iff. intros [Hc Hw] Hex.
  destruct (is_letter_or_hyphen c) eqn:Hl.
  - exists "", c, w. auto.
  - simpl in Hex. destruct (IH Hw Hex) as (d & l & rest & -> & Hd & Hl' & Hrest).
    exists (String c d), l, rest. simpl. repeat split; auto.
    now rewrite (ident_cases c Hc Hl), Hd.
Qed.

Lemma lang_pre_ident (w : string) :
  lang SemanticVersion.pre_ident w <-> Spec.prerelease_identifier w.
Proof.
  unfold Spec.prerelease_identifier. rewrite <- lang_numeric.
  unfold SemanticVersion.pre_ident, SemanticVersion.numeric.
  cbn [lang]. split.
  - intros [H | [H | (d & v & -> & Hd & (l & rest & -> & (c & -> & Hc) & Hrest))]].
    + left. now left.
    + left. now right.
    + right. apply lang_star_chr in Hd. apply lang_star_chr in Hrest.
      rewrite forallb_str_app, existsb_str_app. simpl.
      rewrite (forallb_str_weaken is_digit is_ident_char d digit_is_ident Hd).
      rewrite (letter_is_ident c Hc), Hc, Hrest. simpl.
      split; [reflexivity | apply orb_true_r].
  - intros [[H | H] | [Hall Hex]].
    + now left.
    + right. now left.
    + right. right.
      destruct (split_at_letter w Hall Hex) as (d & l & rest & -> & Hd & Hl & Hrest).
      exists d, (String l rest). repeat split.
      * now apply lang_star_chr.
      * exists (String l ""), rest. repeat split.
        -- now exists l.
        -- now apply lang_star_chr.
Qed.

Lemma lang_build_ident (w : string) :
  lang SemanticVersion.build_ident w <-> Spec.build_identifier w.
Proof.
  unfold SemanticVersion.build_ident, Plus, Spec.build_identifier. cbn [lang]. split.
  - intros (u & v & -> & (c & -> & Hc) & Hv). apply lang_star_chr in Hv.
    split; [discriminate|]. simpl. now rewrite Hc, Hv.
  - intros [Hne Hall]. destruct w as [|c w]; [congruence|].
    simpl in Hall. apply andb_true_iff in Hall. destruct Hall as [Hc Hw].
    exists (String c ""), w. repeat split.
    + now exists c.
    + now apply lang_star_chr.
Qed.

Lemma join_dot (i : string) (rest : list string) :
  join "." (i :: rest) = i ++ dot_tail rest.
Proof.
  unfold join. revert i. induction rest as [|j rest IH]; intros i.
  - simpl. now rewrite app_nil_right.
  - change (String.concat "." (i :: j :: rest))
      with (i ++ "." ++ String.concat "." (j :: rest)).
    now rewrite IH.
Qed.

Section Dotted.
Variable X : regex.
Variable P : string -> Prop.
Hypothesis X_spec : forall w, lang X w <-> P w.

Lemma lang_dot_tail (v : string) :
  star_closure (lang (Seq SemanticVersion.dot X)) v <->
  exists rest, Forall P rest /\ v = dot_tail rest.
Proof.
  split.
  - induction 1 as [|u v (a & b & -> & (c & -> & Hc) & Hb) _ _ (rest & Hrest & ->)].
    + exists []. auto.
    + apply is_char_eq in Hc. subst c. exists (b :: rest). split.
      * constructor; [now apply X_spec | exact Hrest].
      * reflexivity.
  - intros (rest & Hrest & ->). induction Hrest as [|i rest Hi _ IH]; simpl.
    + constructor.
    + change (String "." (i ++ dot_tail rest)) with ("." ++ i ++ dot_tail rest).
      rewrite <- app_assoc_str. constructor; [|discriminate|exact IH].
      exists ".", i. repeat split; [|now apply X_spec].
      now exists "."%char.
Qed.

Lemma lang_dotted (w : string) :
  lang (Seq X (Star (Seq SemanticVersion.dot X))) w <-> Spec.dotted P w.
Proof.
  unfold Spec.dotted. cbn [lang]. split.
  - intros (i & v & -> & Hi & Hv). apply lang_dot_tail in Hv.
    destruct Hv as (rest & Hrest & ->). exists i, rest.
    rewrite join_dot. repeat split; [now apply X_spec | exact Hrest].
  - intros (i & rest & Hi & Hrest & ->). rewrite join_dot.
    exists i, (dot_tail rest). repeat split; [now apply X_spec|].
    apply lang_dot_tail. now exists rest.
Qed.
End Dotted.

Lemma lang_prerelease (w : string) :
  lang SemanticVersion.prerelease_re w <-> Spec.dotted Spec.prerelease_identifier w.
Proof. apply lang_dotted, lang_pre_ident. Qed.

Lemma lang_buildmetadata (w : string) :
  lang SemanticVersion.buildmetadata_re w <-> Spec.dotted Spec.build_identifier w.
Proof. apply lang_dotted, lang_build_ident. Qed.

(* ================================================================== *)
(** ** Stepping through a pattern, piece by piece *)

Section Steps.
Variable total : nat.

Lemma bol_sound r s g k res :
  exec total (Seq Bol r) s g k = Some res ->
  length s = total /\ exec total r s g k = Some res.
Proof.
  cbn [exec]. destruct (Nat.eqb (length s) total) eqn:E; [|discriminate].
  apply Nat.eqb_eq in E. auto.
Qed.

Lemma bol_complete r s g k :
  length s = total -> exec total r s g k <> None ->
  exec total (Seq Bol r) s g k <> None.
Proof.
  intros E H. cbn [exec]. apply Nat.eqb_eq in E. now rewrite E.
Qed.

Lemma group_sound n r r2 s g k res :
  plain r = true ->
  exec total (Seq (Group n r) r2) s g k = Some res ->
  exists u s', s = u ++ s' /\ lang r u /\
               exec total r2 s' (set_group n u g) k = Some res.
Proof.
  intros Hp H. cbn [exec] in H. apply (exec_sound total r Hp) in H.
  destruct H as (u & s' & -> & Hu & H). rewrite consumed_app in H.
  exists u, s'. auto.
Qed.

Lemma group_complete n r r2 u s' g k :
  plain r = true -> lang r u ->
  exec total r2 s' (set_group n u g) k <> None ->
  exec total (Seq (Group n r) r2) (u ++ s') g k <> None.
Proof.
  intros Hp Hu H. cbn [exec]. apply (exec_complete total r Hp); [exact Hu|].
  now rewrite consumed_app.
Qed.

Lemma chr_sound a r2 s g k res :
  exec total (Seq (Chr (is_char a)) r2) s g k = Some res ->
  exists s', s = String a s' /\ exec total r2 s' g k = Some res.
Proof.
  cbn [exec]. destruct s as [|c s]; [discriminate|].
  destruct (is_char a c) eqn:E; [|discriminate].
  apply is_char_eq in E. subst c. intros H. now exists s.
Qed.

Lemma chr_complete a r2 s' g k :
  exec total r2 s' g k <> None ->
  exec total (Seq (Chr (is_char a)) r2) (String a s') g k <> None.
Proof.
  intros H. cbn [exec]. unfold is_char. now rewrite Ascii.eqb_refl.
Qed.

Lemma opt_sound r1 r2 s g k res :
  exec total (Seq (Opt r1) r2) s g k = Some res ->
  exec total (Seq r1 r2) s g k = Some res \/ exec total r2 s g k = Some res.
Proof. unfold Opt. cbn [exec]. apply orelse_some. Qed.

Lemma opt_taken r1 r2 s g k :
  exec total (Seq r1 r2) s g k <> None ->
  exec total (Seq (Opt r1) r2) s g k <> None.
Proof. unfold Opt. cbn [exec]. apply orelse_left. Qed.

Lemma opt_skipped r1 r2 s g k :
  exec total r2 s g k <> None ->
  exec total (Seq (Opt r1) r2) s g k <> None.
Proof. unfold Opt. cbn [exec]. apply orelse_right. Qed.

Lemma seq_assoc r1 r2 r3 s g k :
  exec total (Seq (Seq r1 r2) r3) s g k = exec total (Seq r1 (Seq r2 r3)) s g k.
Proof. reflexivity. Qed.

Lemma eol_sound s g k res :
  exec total Eol s g k = Some res ->
  (s = "" \/ s = nl) /\ k s g = Some res.
Proof.
  cbn [exec]. destruct s as [|c [|c' s]]; try discriminate; [auto|].
  destruct (Ascii.eqb c LF) eqn:E; [|discriminate].
  apply Ascii.eqb_eq in E. subst c. auto.
Qed.

Lemma eol_complete s g k :
  s = "" \/ s = nl -> k s g <> None -> exec total Eol s g k <> None.
Proof. intros [-> | ->] H; exact H. Qed.
End Steps.

Lemma semver_sound (s : string) (m : groups) :
  re_match SemanticVersion.semver_re s = Some m -> semver_parts s m.
Proof.
  unfold re_match, SemanticVersion.semver_re, SemanticVersion.dot. intros H.
  apply bol_sound in H. destruct H as [_ H].
  apply group_sound in H; [|reflexivity].
  destruct H as (u1 & s1 & E1 & L1 & H).
  apply chr_sound in H. destruct H as (s1' & E1' & H).
  apply group_sound in H; [|reflexivity].
  destruct H as (u2 & s2 & E2 & L2 & H).
  apply chr_sound in H. destruct H as (s2' & E2' & H).
  apply group_sound in H; [|reflexivity].
  destruct H as (u3 & s3 & E3 & L3 & H).
  apply lang_numeric in L1, L2, L3.
  assert (Hrest : exists pre bld tail,
             Spec.opt_holds (Spec.dotted Spec.prerelease_identifier) pre /\
             Spec.opt_holds (Spec.dotted Spec.build_identifier) bld /\
             (tail = "" \/ tail = nl) /\
             s3 = Spec.suffix "-" pre ++ Spec.suffix "+" bld ++ tail /\
             m 1 = Some u1 /\ m 2 = Some u2 /\ m 3 = Some u3 /\
             m 4 = pre /\ m 5 = bld).
  { apply opt_sound in H. destruct H as [H | H].
    - rewrite seq_assoc in H. apply chr_sound in H. destruct H as (s3' & E3' & H).
      apply group_sound in H; [|reflexivity].
      destruct H as (p & s4 & E4 & L4 & H). apply lang_prerelease in L4.
      apply opt_sound in H. destruct H as [H | H].
      + rewrite seq_assoc in H. apply chr_sound in H. destruct H as (s4' & E4' & H).
        apply group_sound in H; [|reflexivity].
        destruct H as (b & s5 & E5 & L5 & H). apply lang_buildmetadata in L5.
        apply eol_sound in H. destruct H as [Ht H]. injection H as <-.
        exists (Some p), (Some b), s5. subst. simpl. repeat split; auto.
      + apply eol_sound in H. destruct H as [Ht H]. injection H as <-.
        exists (Some p), None, s4. subst. simpl. repeat split; auto.
    - apply opt_sound in H. destruct H as [H | H].
      + rewrite seq_assoc in H. apply chr_sound in H. destruct H as (s4' & E4' & H).
        apply group_sound in H; [|reflexivity].
        destruct H as (b & s5 & E5 & L5 & H). apply lang_buildmetadata in L5.
        apply eol_sound in H. destruct H as [Ht H]. injection H as <-.
        exists None, (Some b), s5. subst. simpl. repeat split; auto.
      + apply eol_sound in H. destruct H as [Ht H]. injection H as <-.
        exists None, None, s3. subst. simpl. repeat split; auto. }
  destruct Hrest as (pre & bld & tail & Hpre & Hbld & Ht & E & G1 & G2 & G3 & G4 & G5).
  exists u1, u2, u3, tail. rewrite G4, G5. subst s s1 s1' s2 s2' s3.
  repeat split; auto.
  change (String "." ?x) with ("." ++ x).
  now rewrite !app_assoc_str.
Qed.

Lemma semver_complete (major minor patch : string) (pre bld : option string)
      (tail : string) :
  Spec.numeric_identifier major -> Spec.numeric_identifier minor ->
  Spec.numeric_identifier patch ->
  Spec.opt_holds (Spec.dotted Spec.prerelease_identifier) pre ->
  Spec.opt_holds (Spec.dotted Spec.build_identifier) bld ->
  tail = "" \/ tail = nl ->
  re_match SemanticVersion.semver_re
    (major ++ "." ++ minor ++ "." ++ patch
     ++ Spec.suffix "-" pre ++ Spec.suffix "+" bld ++ tail) <> None.
Proof.
  intros L1 L2 L3 Hpre Hbld Ht.
  apply lang_numeric in L1, L2, L3.
  unfold re_match, SemanticVersion.semver_re, SemanticVersion.dot.
  apply bol_complete; [reflexivity|].
  apply group_complete; [reflexivity | exact L1 |].
  apply chr_complete.
  apply group_complete; [reflexivity | exact L2 |].
  apply chr_complete.
  apply group_complete; [reflexivity | exact L3 |].
  assert (Hend : forall g,
             exec (length (major ++ "." ++ minor ++ "." ++ patch
                           ++ Spec.suffix "-" pre ++ Spec.suffix "+" bld ++ tail))
                  (Seq (Opt (Seq (Chr (is_char "+"))
                                 (Group 5 SemanticVersion.buildmetadata_re))) Eol)
                  (Spec.suffix "+" bld ++ tail) g
                  (fun _ g' => Some g') <> None).
  { intros g. destruct bld as [b|]; simpl Spec.suffix.
    - apply opt_taken. rewrite seq_assoc. apply chr_complete.
      apply (group_complete _ 5 _ Eol b tail); [reflexivity | now apply lang_buildmetadata |].
      apply eol_complete; [exact Ht | discriminate].
    - apply opt_skipped. apply eol_complete; [exact Ht | discriminate]. }
  destruct pre as [p|]; simpl Spec.suffix.
  - apply opt_taken. rewrite seq_assoc. apply chr_complete.
    apply (group_complete _ 4 _ _ p (Spec.suffix "+" bld ++ tail));
      [reflexivity | now apply lang_prerelease |].
    apply Hend.
  - apply opt_skipped. apply Hend.
Qed.

(* ================================================================== *)
(** ** [int] and [str] on numeric identifiers *)

Lemma nonzero_digit_uint (c : ascii) (d : Decimal.uint) :
  is_nonzero_digit c = true ->
  exists d', uint_of_char c (Some d) = Some d' /\ Decimal.unorm d' = d'.
Proof.
  destruct c as [[|] [|] [|] [|] [|] [|] [|] [|]]; try discriminate; intros _;
    eexists; split; reflexivity.
Qed.

Lemma digit_uint (c : ascii) (d : Decimal.uint) :
  is_digit c = true -> exists d', uint_of_char c (Some d) = Some d'.
Proof.
  destruct c as [[|] [|] [|] [|] [|] [|] [|] [|]]; try discriminate; intros _;
    eexists; reflexivity.
Qed.

Lemma digits_uint (w : string) :
  forallb_str is_digit w = true -> exists d, NilEmpty.uint_of_string w = Some d.
Proof.
  induction w as [|c w IH]; simpl.
  - now exists Decimal.Nil.
  - rewrite andb_true_iff. intros [Hc Hw]. destruct (IH Hw) as (d & ->).
    now apply digit_uint.
Qed.

Lemma int_numeric (w : string) :
  Spec.numeric_identifier w -> exists n, int w = Some n /\ str_of_int n = w.
Proof.
  intros [-> | (c & w' & -> & Hc & Hw)].
  - exists 0%N. split; reflexivity.
  - destruct (digits_uint w' Hw) as (d & Hd).
    destruct (nonzero_digit_uint c d Hc) as (d' & Hd' & Hnorm).
    assert (Hparse : NilZero.uint_of_string (String c w') = Some d').
    { simpl. now rewrite Hd. }
    exists (N.of_uint d'). unfold int, str_of_int. rewrite Hparse. split; [reflexivity|].
    rewrite DecimalN.Unsigned.to_of, Hnorm. now apply NilZero.sus.
Qed.

(** The version [parse] builds from a successful match. *)
Lemma parse_of_match (s : string) (m : groups) :
  re_match SemanticVersion.semver_re s = Some m ->
  exists v tail,
    SemanticVersion.parse s = Ok v /\
    (tail = "" \/ tail = nl) /\ s = SemanticVersion.to_str v ++ tail /\
    SemanticVersion.prerelease v = m 4 /\ SemanticVersion.build_metadata v = m 5.
Proof.
  intros Hm. destruct (semver_sound s m Hm)
    as (u1 & u2 & u3 & tail & L1 & L2 & L3 & _ & _ & Ht & E & G1 & G2 & G3).
  destruct (int_numeric u1 L1) as (n1 & I1 & S1).
  destruct (int_numeric u2 L2) as (n2 & I2 & S2).
  destruct (int_numeric u3 L3) as (n3 & I3 & S3).
  exists (SemanticVersion.Build n1 n2 n3 (m 4) (m 5)), tail.
  unfold SemanticVersion.parse, SemanticVersion.group_int.
  rewrite Hm, G1, G2, G3, I1, I2, I3. simpl bind.
  repeat split; auto.
  rewrite E. f_equal. unfold SemanticVersion.to_str. simpl.
  rewrite S1, S2, S3.
  destruct (m 4), (m 5); cbn [Spec.suffix]; str_norm; reflexivity.
Qed.

(* ================================================================== *)
(** ** SemanticVersion.parse and __str__ *)

Lemma parse_ok_match (s : string) (v : SemanticVersion.t) :
  SemanticVersion.parse s = Ok v ->
  exists m, re_match SemanticVersion.semver_re s = Some m.
Proof.
  unfold SemanticVersion.parse.
  destruct (re_match SemanticVersion.semver_re s) as [m|]; [eauto | discriminate].
Qed.

(** C3, as the specification states it, fails: a version followed by one
    newline is no semantic version, and [parse] accepts it. *)
Lemma parse_accepts_trailing_newline :
  SemanticVersion.parse ("1.2.3" ++ nl) = Ok (SemanticVersion.Build 1 2 3 None None)
  /\ ~ Spec.semver_grammar ("1.2.3" ++ nl).
Proof.
  split; [reflexivity|].
  intros (major & minor & patch & pre & bld & L1 & L2 & L3 & Hpre & Hbld & E).
  pose proof (semver_complete major minor patch pre bld nl L1 L2 L3 Hpre Hbld
                (or_intror eq_refl)) as H.
  apply H. clear H.
  replace (major ++ "." ++ minor ++ "." ++ patch
           ++ Spec.suffix "-" pre ++ Spec.suffix "+" bld ++ nl)
    with (("1.2.3" ++ nl) ++ nl).
  - reflexivity.
  - rewrite E. now rewrite !app_assoc_str.
Qed.

(** C3 (amended): on every ASCII text of at most [int_max_str_digits]
    characters, [parse] succeeds exactly when the text matches the
    semantic-version grammar as a whole, or does so once a single final
    newline is taken off; on every other such text it raises
    ValueError("Invalid semantic version").  The two hypotheses delimit the
    texts on which the classes and conversions of the model are those of the
    interpreter: beyond ASCII the digit class of [semver_re] admits further
    digits, and beyond the bound [int] may refuse a conversion. *)
Theorem parse_accepts_grammar_up_to_newline (s : string) :
  ascii_text s ->
  String.length s <= int_max_str_digits ->
  (is_ok (SemanticVersion.parse s) = true <->
   exists core, Spec.semver_grammar core /\ (s = core \/ s = core ++ nl))
  /\ (is_ok (SemanticVersion.parse s) = true \/
      SemanticVersion.parse s = Raise (ValueError "Invalid semantic version")).
Proof.
  intros _ _. split; [split|].
  - intros Hok. destruct (SemanticVersion.parse s) as [v|] eqn:Hp; [|discriminate].
    destruct (parse_ok_match s v Hp) as (m & Hm).
    destruct (semver_sound s m Hm)
      as (u1 & u2 & u3 & tail & L1 & L2 & L3 & Hpre & Hbld & Ht & E & _).
    exists (u1 ++ "." ++ u2 ++ "." ++ u3
            ++ Spec.suffix "-" (m 4) ++ Spec.suffix "+" (m 5)).
    split.
    + exists u1, u2, u3, (m 4), (m 5). auto 10.
    + destruct Ht as [-> | ->]; [left | right]; rewrite E; auto using app_nil_right.
  - intros (core & (major & minor & patch & pre & bld & L1 & L2 & L3 & Hpre & Hbld & E)
            & Hs).
    assert (Hm : exists tail, (tail = "" \/ tail = nl) /\
                 s = major ++ "." ++ minor ++ "." ++ patch
                     ++ Spec.suffix "-" pre ++ Spec.suffix "+" bld ++ tail).
    { destruct Hs as [-> | ->]; [exists "" | exists nl]; subst core;
        rewrite ?app_assoc_str, ?app_nil_right; auto. }
    destruct Hm as (tail & Ht & ->).
    pose proof (semver_complete major minor patch pre bld tail L1 L2 L3 Hpre Hbld Ht) as H.
    destruct (re_match SemanticVersion.semver_re _) as [m|] eqn:Hm; [|congruence].
    destruct (parse_of_match _ m Hm) as (v & _ & -> & _). reflexivity.
  - unfold SemanticVersion.parse at 2.
    destruct (re_match SemanticVersion.semver_re s) as [m|] eqn:Hm; [|now right].
    destruct (parse_of_match s m Hm) as (v & _ & -> & _). now left.
Qed.

Lemma parse_accepts_grammar_up_to_newline_witness :
  (is_ok (SemanticVersion.parse ("1.2.3-rc.1+build.7" ++ nl)) = true <->
   exists core, Spec.semver_grammar core /\
                ("1.2.3-rc.1+build.7" ++ nl = core \/
                 "1.2.3-rc.1+build.7" ++ nl = core ++ nl))
  /\ (is_ok (SemanticVersion.parse ("1.2.3-rc.1+build.7" ++ nl)) = true \/
      SemanticVersion.parse ("1.2.3-rc.1+build.7" ++ nl)
      = Raise (ValueError "Invalid semantic version")).
Proof.
  apply (parse_accepts_grammar_up_to_newline ("1.2.3-rc.1+build.7" ++ nl)).
  - reflexivity.
  - apply Nat.leb_le. reflexivity.
Defined.

(** C4, as the specification states it, fails on the same input: the
    serialized version has lost the newline. *)
Lemma roundtrip_loses_newline :
  exists v, SemanticVersion.parse ("1.2.3" ++ nl) = Ok v
            /\ SemanticVersion.to_str v <> "1.2.3" ++ nl.
Proof.
  exists (SemanticVersion.Build 1 2 3 None None). split; [reflexivity | discriminate].
Qed.

(** C4 (amended): for every ASCII text [s] that [parse] accepts, serializing
    the parsed version gives back [s], or [s] without its single final
    newline.  (Beyond ASCII the digit class of [semver_re] admits further
    digits, which [int] converts and [__str__] writes as ASCII digits.) *)
Theorem serialize_parse_up_to_newline (s : string) (v : SemanticVersion.t) :
  ascii_text s ->
  SemanticVersion.parse s = Ok v ->
  s = SemanticVersion.to_str v \/ s = SemanticVersion.to_str v ++ nl.
Proof.
  intros _ Hp. destruct (parse_ok_match s v Hp) as (m & Hm).
  destruct (parse_of_match s m Hm) as (v' & tail & Hp' & Ht & E & _).
  rewrite Hp in Hp'. injection Hp' as <-.
  destruct Ht as [-> | ->]; [left | right]; rewrite E at 1; auto using app_nil_right.
Qed.

Lemma serialize_parse_up_to_newline_witness :
  "1.2.3-rc.1+build.7" =
    SemanticVersion.to_str
      (SemanticVersion.Build 1 2 3 (Some "rc.1") (Some "build.7"))
  \/ "1.2.3-rc.1+build.7" =
    SemanticVersion.to_str
      (SemanticVersion.Build 1 2 3 (Some "rc.1") (Some "build.7")) ++ nl.
Proof.
  apply (serialize_parse_up_to_newline "1.2.3-rc.1+build.7"
           (SemanticVersion.Build 1 2 3 (Some "rc.1") (Some "build.7")));
    reflexivity.
Defined.

(* ================================================================== *)
(** ** ConventionalCommit.parse and __str__ *)

Lemma replace_app (old : ascii) (new a b : string) :
  replace old new (a ++ b) = replace old new a ++ replace old new b.
Proof.
  induction a as [|c a IH]; simpl; [reflexivity|].
  now rewrite IH, app_assoc_str.
Qed.

Lemma rev_replace (s : string) :
  rev_str (replace LF " " s) = replace LF " " (rev_str s).
Proof.
  induction s as [|c s IH]; simpl; [reflexivity|].
  rewrite replace_app. simpl. rewrite app_nil_right.
  destruct (Ascii.eqb c LF); simpl; rewrite IH; reflexivity.
Qed.

Lemma lstrip_replace (s : string) :
  lstrip ConventionalCommit.space_or_newline (replace LF " " s)
  = replace LF " " (lstrip ConventionalCommit.space_or_newline s).
Proof.
  induction s as [|c s IH]; [reflexivity|].
  cbn [replace lstrip].
  destruct (Ascii.eqb_spec c LF) as [-> | Hnl].
  - change (ConventionalCommit.space_or_newline LF) with true.
    cbn [append lstrip].
    change (ConventionalCommit.space_or_newline " ") with true.
    exact IH.
  - cbn [append lstrip].
    destruct (ConventionalCommit.space_or_newline c) eqn:Hp; [exact IH|].
    cbn [replace]. apply Ascii.eqb_neq in Hnl. now rewrite Hnl.
Qed.

Lemma clean_is_normalize (raw : string) :
  ConventionalCommit.clean raw = Spec.normalize raw.
Proof.
  unfold ConventionalCommit.clean, Spec.normalize, strip, rstrip.
  now rewrite lstrip_replace, rev_replace, lstrip_replace, rev_replace.
Qed.

Lemma lang_Lit (w u : string) : lang (Lit w) u <-> u = w.
Proof.
  revert u. induction w as [|c w IH]; intros u; simpl.
  - tauto.
  - split.
    + intros (a & b & -> & (c' & -> & Hc) & Hb). apply is_char_eq in Hc.
      apply IH in Hb. now subst.
    + intros ->. exists (String c ""), w. repeat split.
      * exists c. split; [reflexivity | now apply is_char_eq].
      * now apply IH.
Qed.

(** What a message that [ConventionalCommit.parse] accepts looks like. *)
Lemma classify_sound (str : string) (c : ConventionalCommit.t) :
  ConventionalCommit.parse str = Some c ->
  exists m ty sc raw tail,
    re_match ConventionalCommit.semantic_re str = Some m /\
    m 1 = Some ty /\ m 2 = Some sc /\ m 3 = Some raw /\
    In ty ["feat"; "fix"; "refactor"; "build"] /\
    (tail = "" \/ tail = nl) /\
    str = ty ++ sc ++ ":" ++ raw ++ tail /\
    c = ConventionalCommit.Build ty sc (ConventionalCommit.clean raw).
Proof.
  unfold ConventionalCommit.parse.
  destruct (re_match ConventionalCommit.semantic_re str) as [m|] eqn:Hm;
    [|discriminate].
  intros [= <-]. exists m.
  unfold re_match, ConventionalCommit.semantic_re in Hm.
  apply bol_sound in Hm. destruct Hm as [_ H].
  apply group_sound in H; [|reflexivity]. destruct H as (ty & s1 & E1 & L1 & H).
  apply group_sound in H; [|reflexivity]. destruct H as (sc & s2 & E2 & L2 & H).
  apply chr_sound in H. destruct H as (s3 & E3 & H).
  apply group_sound in H; [|reflexivity]. destruct H as (raw & s4 & E4 & L4 & H).
  apply eol_sound in H. destruct H as [Ht H]. injection H as <-.
  exists ty, sc, raw, s4. subst str s1 s2 s3. cbn.
  repeat split; auto.
  cbn [lang] in L1. rewrite !lang_Lit in L1.
  destruct L1 as [-> | [-> | [-> | ->]]]; simpl; auto.
Qed.

(** C7, as the specification states it, fails: a tab in front of the
    description is whitespace, and it stays. *)
Lemma description_keeps_tab :
  exists c raw,
    ConventionalCommit.parse ("feat:" ++ String TAB "x") = Some c /\
    (exists m, re_match ConventionalCommit.semantic_re ("feat:" ++ String TAB "x")
               = Some m /\ m 3 = Some raw) /\
    ConventionalCommit.description c = String TAB "x" /\
    Spec.normalize_whitespace raw = "x" /\
    ConventionalCommit.description c <> Spec.normalize_whitespace raw.
Proof.
  exists (ConventionalCommit.Build "feat" "" (String TAB "x")), (String TAB "x").
  split; [reflexivity|]. split.
  - eexists. split; reflexivity.
  - split; [reflexivity|]. split; [reflexivity | discriminate].
Qed.

(** C7 (amended): for every message that [ConventionalCommit.parse] accepts,
    the stored description is the captured description with every newline
    replaced by one space and with the spaces and newlines around it, and
    no other characters, trimmed off. *)
Theorem description_is_normalized (str : string) (c : ConventionalCommit.t) :
  ConventionalCommit.parse str = Some c ->
  exists m raw,
    re_match ConventionalCommit.semantic_re str = Some m /\
    m 3 = Some raw /\
    ConventionalCommit.description c = Spec.normalize raw.
Proof.
  intros Hp.
  destruct (classify_sound str c Hp)
    as (m & ty & sc & raw & tail & Hm & _ & _ & G3 & _ & _ & _ & ->).
  exists m, raw. rewrite <- clean_is_normalize. auto.
Qed.

Lemma description_is_normalized_witness :
  exists m raw,
    re_match ConventionalCommit.semantic_re ("feat: line one" ++ nl ++ "line two")
    = Some m /\
    m 3 = Some raw /\
    ConventionalCommit.description
      (ConventionalCommit.Build "feat" "" "line one line two")
    = Spec.normalize raw.
Proof.
  apply (description_is_normalized ("feat: line one" ++ nl ++ "line two")
           (ConventionalCommit.Build "feat" "" "line one line two")).
  reflexivity.
Defined.

(** C8: the scope group keeps the parentheses of the message and [__str__]
    adds a pair of its own, so the rendered commit has them twice. *)
Theorem render_doubles_parentheses :
  option_map ConventionalCommit.to_str
    (ConventionalCommit.parse "feat(api): add endpoint")
  = Some "feat((api)): add endpoint"
  /\ Spec.render "feat" "api" "add endpoint" = "feat(api): add endpoint".
Proof. split; reflexivity. Qed.

(* ================================================================== *)
(** ** The order on strings that [sorted] uses *)

Lemma ltb_lt (a b : string) : String.ltb a b = true <-> String_as_OT.lt a b.
Proof.
  unfold String.ltb. rewrite <- String_as_OT.cmp_lt. unfold String_as_OT.cmp.
  destruct (String.compare a b); split; congruence.
Qed.

Lemma ltb_irrefl (a : string) : String.ltb a a = false.
Proof.
  apply not_true_is_false. rewrite ltb_lt. intros H.
  apply (String_as_OT.lt_not_eq a a H). reflexivity.
Qed.

Lemma ltb_trans (a b c : string) :
  String.ltb a b = true -> String.ltb b c = true -> String.ltb a c = true.
Proof. rewrite !ltb_lt. apply String_as_OT.lt_trans. Qed.

Lemma ltb_asym (a b : string) : String.ltb a b = true -> String.ltb b a = false.
Proof.
  intros H. apply not_true_is_false. intros H'.
  pose proof (ltb_trans a b a H H') as Haa. rewrite ltb_irrefl in Haa. discriminate.
Qed.

Lemma ltb_total (a b : string) :
  String.ltb a b = false -> String.ltb b a = false -> a = b.
Proof.
  unfold String.ltb. rewrite (String.compare_antisym b a).
  destruct (String.compare a b) eqn:E; simpl; try discriminate.
  intros _ _. now apply String.compare_eq_iff.
Qed.

Lemma ltb_neq (a b : string) : String.ltb a b = true -> String.eqb a b = false.
Proof.
  intros H. apply String.eqb_neq. intros ->. rewrite ltb_irrefl in H. discriminate.
Qed.

Lemma ltb_le_trans (a b c : string) :
  String.ltb a b = true -> String.ltb c b = false -> String.ltb a c = true.
Proof.
  intros Hab Hcb. destruct (String.ltb b c) eqn:Hbc.
  - exact (ltb_trans a b c Hab Hbc).
  - now rewrite <- (ltb_total b c Hbc Hcb).
Qed.

Lemma le_trans_str (a b c : string) :
  String.ltb b a = false -> String.ltb c b = false -> String.ltb c a = false.
Proof.
  intros Hba Hcb. apply not_true_is_false. intros Hca.
  pose proof (ltb_le_trans c a b Hca Hba) as Hcb'. congruence.
Qed.

(* ================================================================== *)
(** ** [sorted] and [groupby] *)

Section Grouping.
Context {A : Type}.
Variable key : A -> string.

Lemma insert_by_in (x y : A) (l : list A) :
  In y (insert_by key x l) <-> y = x \/ In y l.
Proof.
  induction l as [|z l IH]; simpl.
  - intuition auto.
  - destruct (String.ltb (key z) (key x)); simpl; rewrite ?IH; intuition auto.
Qed.

Lemma sorted_in (y : A) (l : list A) : In y (sorted key l) <-> In y l.
Proof.
  induction l as [|x l IH]; simpl; [tauto|].
  rewrite insert_by_in, IH. intuition auto.
Qed.

Lemma insert_by_filter (t : string) (x : A) (l : list A) :
  filter (has_key key t) (insert_by key x l)
  = if has_key key t x then x :: filter (has_key key t) l else filter (has_key key t) l.
Proof.
  induction l as [|y l IH]; simpl; [reflexivity|].
  destruct (String.ltb (key y) (key x)) eqn:Hlt; simpl; [|reflexivity].
  rewrite IH. destruct (has_key key t x) eqn:Hx; [|reflexivity].
  assert (Hy : has_key key t y = false).
  { unfold has_key in *. apply String.eqb_eq in Hx. subst t.
    exact (ltb_neq _ _ Hlt). }
  now rewrite Hy.
Qed.

(** [sorted] is stable: the elements of one key keep their order. *)
Lemma sorted_filter (t : string) (l : list A) :
  filter (has_key key t) (sorted key l) = filter (has_key key t) l.
Proof.
  induction l as [|x l IH]; simpl; [reflexivity|].
  rewrite insert_by_filter, IH. reflexivity.
Qed.

Lemma insert_by_sorted (x : A) (l : list A) :
  StronglySorted (key_le key) l -> StronglySorted (key_le key) (insert_by key x l).
Proof.
  induction 1 as [|y l Hs IH Hy]; simpl.
  - repeat constructor.
  - destruct (String.ltb (key y) (key x)) eqn:Hlt.
    + constructor; [exact IH|].
      apply Forall_forall. intros z Hz. apply insert_by_in in Hz.
      destruct Hz as [-> | Hz].
      * unfold key_le. now apply ltb_asym.
      * rewrite Forall_forall in Hy. now apply Hy.
    + constructor; [now constructor|].
      constructor; [exact Hlt|].
      apply Forall_forall. intros z Hz. rewrite Forall_forall in Hy.
      unfold key_le. apply le_trans_str with (b := key y); [exact Hlt|].
      now apply Hy.
Qed.

Lemma sorted_is_sorted (l : list A) : StronglySorted (key_le key) (sorted key l).
Proof.
  induction l as [|x l IH]; simpl; [constructor | now apply insert_by_sorted].
Qed.

Lemma filter_none (f : A -> bool) (l : list A) :
  (forall y, In y l -> f y = false) -> filter f l = [].
Proof.
  induction l as [|y l IH]; simpl; intros H; [reflexivity|].
  rewrite (H y (or_introl eq_refl)). apply IH. intros z Hz. apply H. now right.
Qed.

(** On a list in key order, [groupby] yields one group per key, in
    strictly ascending key order, each group being the elements of its
    key in the order of the list. *)
Lemma groupby_sorted (l : list A) :
  StronglySorted (key_le key) l ->
  StronglySorted key_lt (groupby key l) /\
  (forall t cs, In (t, cs) (groupby key l) ->
                cs <> [] /\ cs = filter (has_key key t) l) /\
  (forall x, In x l -> In (key x) (map fst (groupby key l))).
Proof.
  induction 1 as [|x l Hs IH Hx]; simpl.
  - split; [constructor|]. split; [intros t cs [] | intros x []].
  - destruct IH as (IHs & IHg & IHk). rewrite Forall_forall in Hx.
    destruct (groupby key l) as [|[k run] more] eqn:G.
    + assert (l = []) as ->.
      { destruct l as [|y l]; [reflexivity|]. destruct (IHk y (or_introl eq_refl)). }
      split; [repeat constructor|]. split.
      * intros t cs [[= <- <-] | []]. split; [discriminate|].
        simpl. unfold has_key. now rewrite String.eqb_refl.
      * intros y [-> | []]. now left.
    + assert (Hk : String.ltb k (key x) = false).
      { destruct (IHg k run (or_introl eq_refl)) as [Hne Hrun].
        destruct run as [|y run]; [congruence|].
        assert (Hy : In y (filter (has_key key k) l)) by (rewrite <- Hrun; now left).
        apply filter_In in Hy. destruct Hy as [Hy Hyk].
        apply String.eqb_eq in Hyk. rewrite <- Hyk. now apply Hx. }
      inversion IHs as [|? ? Hmore Hfirst]; subst.
      rewrite Forall_forall in Hfirst.
      assert (Hlater : forall t cs, In (t, cs) more -> String.ltb k t = true).
      { intros t cs Hin. exact (Hfirst (t, cs) Hin). }
      destruct (String.eqb (key x) k) eqn:E.
      * split; [|split].
        -- constructor; [exact Hmore|].
           apply Forall_forall. intros [t cs] Hin. exact (Hlater t cs Hin).
        -- intros t cs [[= <- <-] | Hin].
           ++ split; [discriminate|]. simpl. unfold has_key at 1. rewrite E.
              f_equal. now destruct (IHg k run (or_introl eq_refl)).
           ++ destruct (IHg t cs (or_intror Hin)) as [Hne Hcs].
              split; [exact Hne|]. simpl. unfold has_key at 1.
              apply String.eqb_eq in E. rewrite E.
              now rewrite (ltb_neq _ _ (Hlater t cs Hin)).
        -- apply String.eqb_eq in E.
           intros y [-> | Hy]; [left; auto | exact (IHk y Hy)].
      * assert (Hxk : String.ltb (key x) k = true).
        { destruct (String.ltb (key x) k) eqn:Hlt; [reflexivity|].
          apply String.eqb_neq in E. destruct E. now apply ltb_total. }
        assert (Hall : forall t cs, In (t, cs) ((k, run) :: more) ->
                                    String.ltb (key x) t = true).
        { intros t cs [[= <- <-] | Hin]; [exact Hxk|].
          exact (ltb_trans _ _ _ Hxk (Hlater t cs Hin)). }
        split; [|split].
        -- constructor; [exact IHs|].
           apply Forall_forall. intros [t cs] Hin. exact (Hall t cs Hin).
        -- intros t cs [[= <- <-] | Hin].
           ++ split; [discriminate|]. simpl. unfold has_key at 1.
              rewrite String.eqb_refl. f_equal. symmetry. apply filter_none.
              intros y Hy. apply IHk in Hy. apply in_map_iff in Hy.
              destruct Hy as ([t cs] & Ht & Hin). simpl in Ht. subst t.
              unfold has_key. rewrite String.eqb_sym.
              exact (ltb_neq _ _ (Hall _ cs Hin)).
           ++ destruct (IHg t cs Hin) as [Hne Hcs].
              split; [exact Hne|]. simpl. unfold has_key at 1.
              now rewrite (ltb_neq _ _ (Hall t cs Hin)).
        -- intros y [-> | Hy]; [left; auto | right; exact (IHk y Hy)].
Qed.
End Grouping.

(* ================================================================== *)
(** ** The walk to the boundary commit *)

Lemma iter_commits_to_from_spec (source : list Commit) (sha : string) :
  Forall (fun c => hexsha c <> sha) (fst (iter_commits_to_from source (Some sha))) /\
  ((source = fst (iter_commits_to_from source (Some sha)) /\
    snd (iter_commits_to_from source (Some sha)) = []) \/
   exists c, hexsha c = sha /\
             source = (fst (iter_commits_to_from source (Some sha))
                       ++ c :: snd (iter_commits_to_from source (Some sha)))%list).
Proof.
  induction source as [|c source IH]; simpl.
  - split; [constructor | left; auto].
  - destruct (String.eqb_spec (hexsha c) sha) as [E | E]; simpl.
    + split; [constructor | right; exists c; auto].
    + destruct (iter_commits_to_from source (Some sha)) as [yielded unread].
      simpl in *. destruct IH as [Hall Hsplit]. split; [now constructor|].
      destruct Hsplit as [[-> ->] | (b & Hb & ->)]; [left; auto|].
      right. exists b. auto.
Qed.

(** C5: for every commit stream and boundary identifier, the generator
    yields the commits in front of the first commit that has the boundary
    identifier, none of which has it, and stops there: that commit is not
    yielded and the commits behind it are never pulled from the stream (a
    stream without such a commit is yielded whole).  For the stream
    c5, c4, c3, c2, c1 and the boundary c2 it yields c5, c4, c3 and leaves
    c1 unread. *)
Theorem in_scope_is_prefix_before_boundary :
  (forall (repo : Repo) (sha : string),
      let walk := iter_commits_to_from (commits repo) (Some sha) in
      iter_commits_to repo (Some sha) = fst walk /\
      Forall (fun c => hexsha c <> sha) (fst walk) /\
      ((commits repo = fst walk /\ snd walk = []) \/
       exists c, hexsha c = sha /\ commits repo = (fst walk ++ c :: snd walk)%list))
  /\ (forall (ts : list TagReference) (m5 m4 m3 m2 m1 : string),
         let c5 := Build_Commit "c5" m5 in
         let c4 := Build_Commit "c4" m4 in
         let c3 := Build_Commit "c3" m3 in
         let c2 := Build_Commit "c2" m2 in
         let c1 := Build_Commit "c1" m1 in
         iter_commits_to {| tags := ts; commits := [c5; c4; c3; c2; c1] |} (Some "c2")
         = [c5; c4; c3]
         /\ iter_commits_to_from [c5; c4; c3; c2; c1] (Some "c2")
            = ([c5; c4; c3], [c1])).
Proof.
  split.
  - intros repo sha walk. split; [reflexivity|].
    apply iter_commits_to_from_spec.
  - intros ts m5 m4 m3 m2 m1. split; reflexivity.
Qed.

(* ================================================================== *)
(** ** The groups of the changelog *)

Lemma change_log_inv (repo : Repo) (cur_ver : SemanticVersion.t) (raw : RawChangelog) :
  change_log repo cur_ver = Ok raw ->
  exists r,
    (find_tag_by_name repo (SemanticVersion.to_str cur_ver) = Some r \/
     (find_tag_by_name repo (SemanticVersion.to_str cur_ver) = None /\
      last_tag repo = Ok r)) /\
    raw = groupby ConventionalCommit.type
            (sorted ConventionalCommit.type
               (conventional (iter_commits_to repo (Some (commit_hexsha r))))).
Proof.
  unfold change_log.
  destruct (find_tag_by_name repo (SemanticVersion.to_str cur_ver)) as [r|].
  - simpl. intros [= <-]. exists r. auto.
  - destruct (last_tag repo) as [r|e]; simpl; [|discriminate].
    intros [= <-]. exists r. auto.
Qed.

(** Grouping the sorted commits by type: the groups are in strictly
    ascending order of their keys, a type has a group exactly when some
    commit has it, and the group of a type is the list of its commits. *)
Lemma grouping_by_category (ccs : list ConventionalCommit.t) :
  let G := groupby ConventionalCommit.type (sorted ConventionalCommit.type ccs) in
  StronglySorted key_lt G /\
  (forall t, In t (map fst G) <->
             exists c, In c ccs /\ ConventionalCommit.type c = t) /\
  (forall t cs, In (t, cs) G -> cs <> [] /\ cs = filter (has_type t) ccs).
Proof.
  intros G.
  destruct (groupby_sorted ConventionalCommit.type
              (sorted ConventionalCommit.type ccs)
              (sorted_is_sorted ConventionalCommit.type ccs)) as (Hs & Hg & Hk).
  fold G in Hs, Hg, Hk.
  assert (Hgroup : forall t cs, In (t, cs) G -> cs = filter (has_type t) ccs).
  { intros t cs Hin. destruct (Hg t cs Hin) as [_ ->].
    apply (sorted_filter ConventionalCommit.type). }
  split; [exact Hs|]. split.
  - intros t. split.
    + intros Hin. apply in_map_iff in Hin. destruct Hin as ([t' cs] & <- & Hin).
      simpl. destruct (Hg t' cs Hin) as [Hne _].
      pose proof (Hgroup t' cs Hin) as Hcs.
      destruct cs as [|c cs]; [congruence|].
      assert (Hc : In c (filter (has_type t') ccs)) by (rewrite <- Hcs; now left).
      apply filter_In in Hc. destruct Hc as [Hc Ht]. apply String.eqb_eq in Ht.
      now exists c.
    + intros (c & Hc & <-). apply Hk. now apply sorted_in.
  - intros t cs Hin. destruct (Hg t cs Hin) as [Hne _]. split; [exact Hne|].
    exact (Hgroup t cs Hin).
Qed.

(** C6: for every repository and version for which [change_log] returns,
    the changelog it returns is built from the classified in-scope commits
    as follows: its groups are in strictly ascending order of category name
    (so one group per category); a category has a group exactly when some
    classified commit has it; and every group is non-empty and holds exactly
    the commits of its category. *)
Theorem groups_by_ascending_category
        (repo : Repo) (cur_ver : SemanticVersion.t) (raw : RawChangelog) :
  change_log repo cur_ver = Ok raw ->
  exists r,
    (find_tag_by_name repo (SemanticVersion.to_str cur_ver) = Some r \/
     (find_tag_by_name repo (SemanticVersion.to_str cur_ver) = None /\
      last_tag repo = Ok r)) /\
    let ccs := conventional (iter_commits_to repo (Some (commit_hexsha r))) in
    StronglySorted key_lt raw /\
    (forall t, In t (map fst raw) <->
               exists c, In c ccs /\ ConventionalCommit.type c = t) /\
    (forall t cs, In (t, cs) raw ->
                  cs <> [] /\
                  (forall c, In c cs <-> In c ccs /\ ConventionalCommit.type c = t) /\
                  Permutation cs (filter (has_type t) ccs)).
Proof.
  intros H. destruct (change_log_inv repo cur_ver raw H) as (r & Hr & ->).
  exists r. split; [exact Hr|]. intros ccs.
  destruct (grouping_by_category ccs) as (Hs & Hk & Hg).
  split; [exact Hs|]. split; [exact Hk|].
  intros t cs Hin. destruct (Hg t cs Hin) as [Hne ->].
  split; [exact Hne|]. split.
  - intros c. rewrite filter_In. unfold has_type. now rewrite String.eqb_eq.
  - apply Permutation_refl.
Qed.

(** Commits classified fix, feat, fix, build, in the order of the stream,
    give the groups build, feat, fix, each with its commits. *)
Lemma groups_by_ascending_category_witness :
  change_log example_history (SemanticVersion.Build 1 0 0 None None)
  = Ok example_changelog /\
  exists r,
    (find_tag_by_name example_history "1.0.0" = Some r \/
     (find_tag_by_name example_history "1.0.0" = None /\
      last_tag example_history = Ok r)) /\
    let ccs := conventional (iter_commits_to example_history (Some (commit_hexsha r))) in
    StronglySorted key_lt example_changelog /\
    (forall t, In t (map fst example_changelog) <->
               exists c, In c ccs /\ ConventionalCommit.type c = t) /\
    (forall t cs, In (t, cs) example_changelog ->
                  cs <> [] /\
                  (forall c, In c cs <-> In c ccs /\ ConventionalCommit.type c = t) /\
                  Permutation cs (filter (has_type t) ccs)).
Proof.
  split; [reflexivity|].
  apply (groups_by_ascending_category example_history
           (SemanticVersion.Build 1 0 0 None None) example_changelog).
  reflexivity.
Defined.

(** C10: within each group of the changelog, the commits are in the order
    in which the commit stream gave them: the group of a category is the
    list of the in-scope classified commits of that category, in stream
    order. *)
Theorem groups_keep_stream_order (repo : Repo) (cur_ver : SemanticVersion.t)
        (raw : RawChangelog) :
  change_log repo cur_ver = Ok raw ->
  exists r,
    (find_tag_by_name repo (SemanticVersion.to_str cur_ver) = Some r \/
     (find_tag_by_name repo (SemanticVersion.to_str cur_ver) = None /\
      last_tag repo = Ok r)) /\
    forall t cs,
      In (t, cs) raw ->
      cs = filter (has_type t)
             (conventional (iter_commits_to repo (Some (commit_hexsha r)))).
Proof.
  intros H. destruct (change_log_inv repo cur_ver raw H) as (r & Hr & ->).
  exists r. split; [exact Hr|]. intros t cs Hin.
  destruct (groupby_sorted ConventionalCommit.type _
              (sorted_is_sorted ConventionalCommit.type
                 (conventional (iter_commits_to repo (Some (commit_hexsha r))))))
    as (_ & Hg & _).
  destruct (Hg t cs Hin) as [_ ->].
  apply (sorted_filter ConventionalCommit.type).
Qed.

Lemma groups_keep_stream_order_witness :
  exists r,
    (find_tag_by_name example_repo "1.2.3" = Some r \/
     (find_tag_by_name example_repo "1.2.3" = None /\ last_tag example_repo = Ok r)) /\
    forall t cs,
      In (t, cs)
         [("feat", [ConventionalCommit.Build "feat" "" "x"]);
          ("fix", [ConventionalCommit.Build "fix" "" "y";
                   ConventionalCommit.Build "fix" "(ui)" "w"])] ->
      cs = filter (has_type t)
             (conventional (iter_commits_to example_repo (Some (commit_hexsha r)))).
Proof.
  apply (groups_keep_stream_order example_repo
           (SemanticVersion.Build 1 2 3 None None)).
  reflexivity.
Defined.

(* ================================================================== *)
(** ** The bump and the release *)

(** C1, as the specification states it, fails on its own example: the
    prerelease and the build metadata survive the bump. *)
Lemma bump_keeps_prerelease_and_build :
  bump (SemanticVersion.Build 1 2 3 (Some "rc1") (Some "b1")) Major
  = SemanticVersion.Build 2 0 0 (Some "rc1") (Some "b1")
  /\ bump (SemanticVersion.Build 1 2 3 (Some "rc1") (Some "b1")) Major
     <> SemanticVersion.Build 2 0 0 None None
  /\ bump (SemanticVersion.Build 1 2 3 (Some "rc1") (Some "b1")) Major
     <> Spec.bump (SemanticVersion.Build 1 2 3 (Some "rc1") (Some "b1")) Major.
Proof. repeat split; discriminate. Qed.

(** C1 (amended): for every version and release type the bump gives
    (major+1, 0, 0), (major, minor+1, 0) or (major, minor, patch+1), and the
    prerelease and build-metadata fields of the result are those of the
    version that was bumped; the bump is a total function. *)
Theorem bump_changes_numbers_only (v : SemanticVersion.t) :
  bump v Major = SemanticVersion.Build (SemanticVersion.major v + 1) 0 0
                   (SemanticVersion.prerelease v) (SemanticVersion.build_metadata v)
  /\ bump v Minor = SemanticVersion.Build (SemanticVersion.major v)
                      (SemanticVersion.minor v + 1) 0
                      (SemanticVersion.prerelease v) (SemanticVersion.build_metadata v)
  /\ bump v Patch = SemanticVersion.Build (SemanticVersion.major v)
                      (SemanticVersion.minor v) (SemanticVersion.patch v + 1)
                      (SemanticVersion.prerelease v) (SemanticVersion.build_metadata v).
Proof. destruct v; repeat split. Qed.

Lemma pop_last {A : Type} (l : list A) (x : A) : pop (l ++ [x])%list = Ok x.
Proof. unfold pop. now rewrite rev_unit. Qed.

(** With no tag for the current version and some tag in the repository, the
    boundary is the commit of the last tag. *)
Lemma change_log_falls_back_to_last_tag (repo : Repo) (cur_ver : SemanticVersion.t)
      (ts : list TagReference) (r : TagReference) :
  find_tag_by_name repo (SemanticVersion.to_str cur_ver) = None ->
  tags repo = (ts ++ [r])%list ->
  change_log repo cur_ver
  = Ok (groupby ConventionalCommit.type
          (sorted ConventionalCommit.type
             (conventional (iter_commits_to repo (Some (commit_hexsha r)))))).
Proof.
  intros Hfind Htags. unfold change_log, last_tag.
  now rewrite Hfind, Htags, pop_last.
Qed.

(** With an undefined boundary the walk yields the whole stream: the case
    that line 177 of [change_log] prepares. *)
Lemma undefined_boundary_takes_all (repo : Repo) :
  iter_commits_to repo None = commits repo.
Proof.
  unfold iter_commits_to. induction (commits repo) as [|c cs IH]; simpl; [reflexivity|].
  destruct (iter_commits_to_from cs None). simpl in *. now rewrite IH.
Qed.

(** C2: in a repository without tags [last_tag] pops from an empty list, so
    building the changelog raises IndexError, whatever the version and the
    commits; the branch of [change_log] for an undefined boundary is never
    reached. *)
Theorem change_log_raises_without_tags (cs : list Commit) (cur_ver : SemanticVersion.t) :
  change_log {| tags := []; commits := cs |} cur_ver
  = Raise (IndexError "pop from empty list").
Proof. reflexivity. Qed.

Lemma render_group_appends (td : string * list ConventionalCommit.t) :
  exists text, forall out, render_group out td = out ++ text.
Proof.
  destruct td as [t d].
  exists (("## " ++ t ++ " " ++ nl) ++ nl
          ++ join nl (map (fun i => "-. " ++ ConventionalCommit.description i) d)
          ++ nl ++ nl).
  intros out. unfold render_group. now rewrite !app_assoc_str.
Qed.

Lemma render_basic_appends (m : RawChangelog) : forall out : string,
  exists body, fold_left render_group m out = out ++ body.
Proof.
  induction m as [|td m IH]; intros out; simpl.
  - exists "". now rewrite app_nil_right.
  - destruct (render_group_appends td) as (text & ->).
    destruct (IH (out ++ text)) as (body & ->).
    exists (text ++ body). now rewrite app_assoc_str.
Qed.

(** C9: in a repository without tags the run of [release] ends at its first
    step, for every version file that parses, every release type and every
    commit stream: resolving the boundary for the version before the bump
    raises IndexError (the defect of C2), so the version is not bumped and
    no document is rendered. *)
Theorem release_raises_without_tags (version_file : string) (t : ReleaseType)
        (cs : list Commit) (v : SemanticVersion.t) :
  SemanticVersion.parse version_file = Ok v ->
  find_tag_by_name {| tags := []; commits := cs |} (SemanticVersion.to_str v) = None /\
  release version_file t {| tags := []; commits := cs |}
  = Raise (IndexError "pop from empty list").
Proof.
  intros Hp. split; [reflexivity|]. unfold release. rewrite Hp. reflexivity.
Qed.

Lemma release_raises_without_tags_witness :
  find_tag_by_name {| tags := []; commits := commits example_repo |}
    (SemanticVersion.to_str (SemanticVersion.Build 1 2 3 None None)) = None /\
  release "1.2.3" Minor {| tags := []; commits := commits example_repo |}
  = Raise (IndexError "pop from empty list").
Proof.
  apply (release_raises_without_tags "1.2.3" Minor (commits example_repo)
           (SemanticVersion.Build 1 2 3 None None)).
  reflexivity.
Defined.

(* ================================================================== *)
(** ** The examples of the specification, run on the code *)

(** The release of 1.2.3 as a minor release: the boundary is the tag of
    1.2.3 (at c2), not the tag of 1.3.0 (at c4), and the document is that of
    1.3.0. *)
Example release_minor_example :
  release "1.2.3" Minor example_repo
  = Ok (SemanticVersion.Build 1 3 0 None None,
        title ++ "1.3.0 " ++ nl ++ nl
        ++ "## feat " ++ nl ++ nl ++ "-. x" ++ nl ++ nl
        ++ "## fix " ++ nl ++ nl ++ "-. y" ++ nl ++ "-. w" ++ nl ++ nl).
Proof. reflexivity. Qed.

Example bump_minor_example :
  bump (SemanticVersion.Build 1 2 3 None None) Minor
  = SemanticVersion.Build 1 3 0 None None.
Proof. reflexivity. Qed.

Example bump_patch_example :
  bump (SemanticVersion.Build 0 0 1 None None) Patch
  = SemanticVersion.Build 0 0 2 None None.
Proof. reflexivity. Qed.

Example classify_scope_example :
  ConventionalCommit.parse "feat(api): add endpoint"
  = Some (ConventionalCommit.Build "feat" "(api)" "add endpoint").
Proof. reflexivity. Qed.

Example classify_newline_example :
  ConventionalCommit.parse ("feat: line one" ++ nl ++ "line two")
  = Some (ConventionalCommit.Build "feat" "" "line one line two").
Proof. reflexivity. Qed.

Example classify_chore_example : ConventionalCommit.parse "chore: bump deps" = None.
Proof. reflexivity. Qed.

Example parse_rejects_examples :
  SemanticVersion.parse "01.2.3" = Raise (ValueError "Invalid semantic version")
  /\ SemanticVersion.parse "1.2" = Raise (ValueError "Invalid semantic version")
  /\ SemanticVersion.parse "1.2.3-01" = Raise (ValueError "Invalid semantic version")
  /\ SemanticVersion.parse "1.2.3+" = Raise (ValueError "Invalid semantic version")
  /\ SemanticVersion.parse ("1.2.3" ++ nl ++ nl)
     = Raise (ValueError "Invalid semantic version").
Proof. repeat split. Qed.

Example fallback_example :
  change_log
    {| tags := [Build_TagReference "0.9.0" "c1"; Build_TagReference "1.0.0" "c2"];
       commits := [Build_Commit "c4" "fix: y"; Build_Commit "c3" "feat: x";
                   Build_Commit "c2" "feat: old"; Build_Commit "c1" "fix: older"] |}
    (SemanticVersion.Build 1 2 3 None None)
  = Ok [("feat", [ConventionalCommit.Build "feat" "" "x"]);
        ("fix", [ConventionalCommit.Build "fix" "" "y"])].
Proof. reflexivity. Qed.

(* ================================================================== *)
(** ** Further properties: the text of a version determines the version *)

(** Two ways of cutting one text after a run of [p] characters agree. *)
Lemma span_unique (p : ascii -> bool) : forall a a' r r' : string,
  forallb_str p a = true -> forallb_str p a' = true ->
  stops p r -> stops p r' ->
  a ++ r = a' ++ r' -> a = a' /\ r = r'.
Proof.
  induction a as [|c a IH]; intros [|c' a'] r r' Ha Ha' Hr Hr' E; simpl in *.
  - auto.
  - subst r. simpl in Hr. apply andb_true_iff in Ha'. destruct Ha' as [Hc _].
    congruence.
  - subst r'. simpl in Hr'. apply andb_true_iff in Ha. destruct Ha as [Hc _].
    congruence.
  - injection E as -> E. apply andb_true_iff in Ha. apply andb_true_iff in Ha'.
    destruct (IH a' r r' (proj2 Ha) (proj2 Ha') Hr Hr' E) as [-> ->]. auto.
Qed.

Lemma uint_string_digits (d : Decimal.uint) :
  forallb_str is_digit (NilEmpty.string_of_uint d) = true.
Proof. induction d; simpl; auto. Qed.

Lemma to_uint_normal (n : N) : Decimal.unorm (N.to_uint n) = N.to_uint n.
Proof.
  rewrite <- (DecimalN.Unsigned.of_to n) at 2.
  now rewrite DecimalN.Unsigned.to_of.
Qed.

Lemma str_of_int_numeric (n : N) : Spec.numeric_identifier (str_of_int n).
Proof.
  unfold str_of_int. pose proof (to_uint_normal n) as Hn.
  destruct (N.to_uint n) as [|d|d|d|d|d|d|d|d|d|d] eqn:E.
  - discriminate.
  - left. rewrite DecimalFacts.unorm_D0 in Hn.
    assert (d = Decimal.Nil) as ->; [|reflexivity].
    destruct (Decimal.uint_eq_dec (Decimal.nzhead d) Decimal.Nil) as [Hz | Hz].
    + unfold Decimal.unorm in Hn. rewrite Hz in Hn. now injection Hn.
    + rewrite (DecimalFacts.unorm_nzhead d Hz) in Hn.
      destruct (DecimalFacts.nzhead_nonzero d d Hn).
  - right. eexists _, _. split; [reflexivity|]. split; [reflexivity | apply uint_string_digits].
  - right. eexists _, _. split; [reflexivity|]. split; [reflexivity | apply uint_string_digits].
  - right. eexists _, _. split; [reflexivity|]. split; [reflexivity | apply uint_string_digits].
  - right. eexists _, _. split; [reflexivity|]. split; [reflexivity | apply uint_string_digits].
  - right. eexists _, _. split; [reflexivity|]. split; [reflexivity | apply uint_string_digits].
  - right. eexists _, _. split; [reflexivity|]. split; [reflexivity | apply uint_string_digits].
  - right. eexists _, _. split; [reflexivity|]. split; [reflexivity | apply uint_string_digits].
  - right. eexists _, _. split; [reflexivity|]. split; [reflexivity | apply uint_string_digits].
  - right. eexists _, _. split; [reflexivity|]. split; [reflexivity | apply uint_string_digits].
Qed.

Lemma int_of_str (n : N) : int (str_of_int n) = Some n.
Proof.
  unfold int, str_of_int. rewrite NilZero.usu.
  - simpl. now rewrite DecimalN.Unsigned.of_to.
  - rewrite <- to_uint_normal. apply DecimalFacts.unorm_nonnil.
Qed.

Lemma numeric_digits (w : string) :
  Spec.numeric_identifier w -> forallb_str is_digit w = true.
Proof.
  intros [-> | (c & w' & -> & Hc & Hw)]; [reflexivity|].
  simpl. now rewrite (nonzero_is_digit c Hc), Hw.
Qed.

Lemma prerelease_ident_chars (i : string) :
  Spec.prerelease_identifier i -> forallb_str is_ident_char i = true.
Proof.
  intros [H | [H _]]; [|exact H].
  apply (forallb_str_weaken is_digit is_ident_char i digit_is_ident).
  now apply numeric_digits.
Qed.

Lemma build_ident_chars (i : string) :
  Spec.build_identifier i -> forallb_str is_ident_char i = true.
Proof. now intros [_ H]. Qed.

Lemma dotted_chars (P : string -> Prop) (w : string) :
  (forall i, P i -> forallb_str is_ident_char i = true) ->
  Spec.dotted P w -> forallb_str is_version_char w = true.
Proof.
  intros HP (i & rest & Hi & Hrest & ->). rewrite join_dot, forallb_str_app.
  assert (Hid : forall j, P j -> forallb_str is_version_char j = true).
  { intros j Hj. apply (forallb_str_weaken is_ident_char is_version_char); [|auto].
    intros c Hc. unfold is_version_char. now rewrite Hc. }
  rewrite (Hid i Hi). simpl.
  induction Hrest as [|j rest Hj _ IH]; simpl; [reflexivity|].
  now rewrite forallb_str_app, (Hid j Hj), IH.
Qed.

Lemma wellformed_chars (pre bld : option string) :
  Spec.opt_holds (Spec.dotted Spec.prerelease_identifier) pre ->
  Spec.opt_holds (Spec.dotted Spec.build_identifier) bld ->
  opt_chars pre /\ opt_chars bld.
Proof.
  intros Hpre Hbld. split.
  - destruct pre; simpl in *; [|exact I].
    exact (dotted_chars _ _ prerelease_ident_chars Hpre).
  - destruct bld; simpl in *; [|exact I].
    exact (dotted_chars _ _ build_ident_chars Hbld).
Qed.

Lemma build_part_unique (bld bld' : option string) (tail tail' : string) :
  opt_chars bld -> opt_chars bld' ->
  tail = "" \/ tail = nl -> tail' = "" \/ tail' = nl ->
  Spec.suffix "+" bld ++ tail = Spec.suffix "+" bld' ++ tail' ->
  bld = bld' /\ tail = tail'.
Proof.
  intros Hb Hb' Ht Ht' E.
  destruct bld as [b|], bld' as [b'|]; simpl in *.
  - injection E as E.
    destruct (span_unique is_version_char b b' tail tail' Hb Hb') as [-> ->]; auto;
      [destruct Ht as [-> | ->] | destruct Ht' as [-> | ->]]; simpl; auto.
  - destruct Ht' as [-> | ->]; discriminate.
  - destruct Ht as [-> | ->]; discriminate.
  - auto.
Qed.

Lemma suffix_parts_unique (pre pre' bld bld' : option string) (tail tail' : string) :
  opt_chars pre -> opt_chars pre' -> opt_chars bld -> opt_chars bld' ->
  tail = "" \/ tail = nl -> tail' = "" \/ tail' = nl ->
  Spec.suffix "-" pre ++ Spec.suffix "+" bld ++ tail
  = Spec.suffix "-" pre' ++ Spec.suffix "+" bld' ++ tail' ->
  pre = pre' /\ bld = bld' /\ tail = tail'.
Proof.
  intros Hp Hp' Hb Hb' Ht Ht' E.
  assert (Hstop : forall o t, t = "" \/ t = nl ->
                              stops is_version_char (Spec.suffix "+" o ++ t)).
  { intros [b|] t [-> | ->]; simpl; auto. }
  destruct pre as [p|], pre' as [p'|]; simpl in E.
  - injection E as E. simpl in Hp, Hp'.
    destruct (span_unique is_version_char p p' _ _ Hp Hp'
                (Hstop bld tail Ht) (Hstop bld' tail' Ht') E) as [-> E'].
    destruct (build_part_unique bld bld' tail tail' Hb Hb' Ht Ht' E') as [-> ->]. auto.
  - destruct bld' as [b'|]; [discriminate|].
    destruct Ht' as [-> | ->]; discriminate.
  - destruct bld as [b|]; [discriminate|].
    destruct Ht as [-> | ->]; discriminate.
  - destruct (build_part_unique bld bld' tail tail' Hb Hb' Ht Ht' E) as [-> ->]. auto.
Qed.

Lemma to_str_text (n1 n2 n3 : N) (pre bld : option string) (tail : string) :
  SemanticVersion.to_str (SemanticVersion.Build n1 n2 n3 pre bld) ++ tail
  = str_of_int n1 ++ "." ++ str_of_int n2 ++ "." ++ str_of_int n3
    ++ Spec.suffix "-" pre ++ Spec.suffix "+" bld ++ tail.
Proof.
  unfold SemanticVersion.to_str. simpl.
  destruct pre, bld; simpl; str_norm; reflexivity.
Qed.

(** The text of a well-formed version, with or without a final newline,
    parses to that version. *)
Lemma parse_of_to_str (v : SemanticVersion.t) (tail : string) :
  wellformed v -> tail = "" \/ tail = nl ->
  SemanticVersion.parse (SemanticVersion.to_str v ++ tail) = Ok v.
Proof.
  destruct v as [n1 n2 n3 pre bld]. intros [Hpre Hbld] Ht. simpl in Hpre, Hbld.
  rewrite to_str_text.
  pose proof (semver_complete _ _ _ pre bld tail (str_of_int_numeric n1)
                (str_of_int_numeric n2) (str_of_int_numeric n3) Hpre Hbld Ht) as Hc.
  destruct (re_match SemanticVersion.semver_re _) as [m|] eqn:Hm; [|congruence].
  destruct (semver_sound _ m Hm)
    as (u1 & u2 & u3 & tail' & L1 & L2 & L3 & Hpre' & Hbld' & Ht' & E & G1 & G2 & G3).
  rewrite !app_assoc_str in E.
  assert (Hrest : forall o1 o2 t, t = "" \/ t = nl ->
             stops is_digit (Spec.suffix "-" o1 ++ Spec.suffix "+" o2 ++ t)).
  { intros [a|] [b|] t [-> | ->]; simpl; auto. }
  assert (D1 := numeric_digits _ (str_of_int_numeric n1)).
  assert (D2 := numeric_digits _ (str_of_int_numeric n2)).
  assert (D3 := numeric_digits _ (str_of_int_numeric n3)).
  assert (D1' := numeric_digits _ L1).
  assert (D2' := numeric_digits _ L2).
  assert (D3' := numeric_digits _ L3).
  match type of E with
  | ?a ++ ?r = ?a' ++ ?r' =>
      destruct (span_unique is_digit a a' r r' D1 D1' eq_refl eq_refl E) as [E1 E']
  end.
  injection E' as E'.
  match type of E' with
  | ?a ++ ?r = ?a' ++ ?r' =>
      destruct (span_unique is_digit a a' r r' D2 D2' eq_refl eq_refl E') as [E2 E'']
  end.
  injection E'' as E''.
  destruct (span_unique is_digit _ _ _ _ D3 D3' (Hrest pre bld tail Ht)
              (Hrest (m 4) (m 5) tail' Ht') E'') as [E3 E4].
  destruct (wellformed_chars pre bld Hpre Hbld) as [Cp Cb].
  destruct (wellformed_chars (m 4) (m 5) Hpre' Hbld') as [Cp' Cb'].
  destruct (suffix_parts_unique pre (m 4) bld (m 5) tail tail' Cp Cp' Cb Cb' Ht Ht' E4)
    as (P4 & P5 & _).
  unfold SemanticVersion.parse. rewrite Hm. unfold SemanticVersion.group_int.
  rewrite G1, G2, G3, <- E1, <- E2, <- E3, !int_of_str, <- P4, <- P5. reflexivity.
Qed.

Lemma parse_wellformed (s : string) (v : SemanticVersion.t) :
  SemanticVersion.parse s = Ok v -> wellformed v.
Proof.
  intros Hp. destruct (parse_ok_match s v Hp) as (m & Hm).
  destruct (parse_of_match s m Hm) as (v' & tail & Hp' & _ & _ & H4 & H5).
  rewrite Hp in Hp'. injection Hp' as <-.
  destruct (semver_sound s m Hm) as (_ & _ & _ & _ & _ & _ & _ & Hpre & Hbld & _).
  unfold wellformed. rewrite H4, H5. auto.
Qed.

Lemma bump_wellformed (v : SemanticVersion.t) (t : ReleaseType) :
  wellformed v -> wellformed (bump v t).
Proof. destruct v, t; exact (fun H => H). Qed.

(** A text without a carriage return is read as it is stored. *)
Lemma universal_newlines_id (s : string) :
  forallb_str not_cr s = true -> universal_newlines s = s.
Proof.
  induction s as [|c s IH]; [reflexivity|].
  cbn [forallb_str universal_newlines]. intros H.
  apply andb_true_iff in H as [Hc Hs]. unfold not_cr in Hc.
  destruct (Ascii.eqb c CR); [discriminate|]. now rewrite (IH Hs).
Qed.

Lemma digit_not_cr (c : ascii) : is_digit c = true -> not_cr c = true.
Proof.
  unfold not_cr. destruct (Ascii.eqb_spec c CR) as [-> | _]; [discriminate | reflexivity].
Qed.

Lemma version_char_not_cr (c : ascii) : is_version_char c = true -> not_cr c = true.
Proof.
  unfold not_cr. destruct (Ascii.eqb_spec c CR) as [-> | _]; [discriminate | reflexivity].
Qed.

Lemma suffix_not_cr (sep : string) (o : option string) :
  forallb_str not_cr sep = true -> opt_chars o ->
  forallb_str not_cr (Spec.suffix sep o) = true.
Proof.
  intros Hsep Ho. destruct o as [w|]; simpl in *; [|reflexivity].
  rewrite forallb_str_app, Hsep.
  exact (forallb_str_weaken is_version_char not_cr w version_char_not_cr Ho).
Qed.

(** The text of a well-formed version, with or without a final newline, has
    no carriage return: it is read from a file as it was written. *)
Lemma read_version_text (v : SemanticVersion.t) (tail : string) :
  wellformed v -> tail = "" \/ tail = nl ->
  universal_newlines (SemanticVersion.to_str v ++ tail) = SemanticVersion.to_str v ++ tail.
Proof.
  destruct v as [n1 n2 n3 pre bld]. intros [Hpre Hbld] Ht. simpl in Hpre, Hbld.
  apply universal_newlines_id. rewrite to_str_text.
  destruct (wellformed_chars pre bld Hpre Hbld) as [Cp Cb].
  assert (D : forall n, forallb_str not_cr (str_of_int n) = true).
  { intros n. apply (forallb_str_weaken is_digit not_cr _ digit_not_cr).
    apply numeric_digits, str_of_int_numeric. }
  rewrite !forallb_str_app, !D, (suffix_not_cr "-" pre eq_refl Cp),
    (suffix_not_cr "+" bld eq_refl Cb).
  destruct Ht as [-> | ->]; reflexivity.
Qed.

(** X1: a version that [parse] returned, dumped to a path, is loaded back
    from that path as the same version, whatever the files held before. *)
Theorem load_after_dump (s fp : string) (fs : Files) (v : SemanticVersion.t) :
  SemanticVersion.parse s = Ok v ->
  load fp (dump v fp fs) = Ran (Ok v).
Proof.
  intros Hp. unfold load, dump, write_file. rewrite String.eqb_refl.
  rewrite <- (app_nil_right (SemanticVersion.to_str v)).
  rewrite (read_version_text v "" (parse_wellformed s v Hp) (or_introl eq_refl)).
  rewrite (parse_of_to_str v "" (parse_wellformed s v Hp) (or_introl eq_refl)).
  reflexivity.
Qed.

Lemma load_after_dump_witness :
  load "./VERSION"
       (dump (SemanticVersion.Build 1 2 3 (Some "rc.1") None) "./VERSION" (fun _ => None))
  = Ran (Ok (SemanticVersion.Build 1 2 3 (Some "rc.1") None)).
Proof.
  apply (load_after_dump ("1.2.3-rc.1" ++ nl) "./VERSION" (fun _ => None)
           (SemanticVersion.Build 1 2 3 (Some "rc.1") None)).
  reflexivity.
Defined.

(** X2: on ASCII text of at most [int_max_str_digits] characters, [parse]
    is the inverse of [__str__] up to one final newline: it returns the
    version [v] on [s] exactly when the prerelease and the build metadata of
    [v] are dotted identifiers and [s] is the text of [v], with or without a
    newline after it.  The two hypotheses delimit the texts on which the
    digit class and the conversions of the model are the interpreter's. *)
Theorem parse_inverts_str (s : string) (v : SemanticVersion.t) :
  ascii_text s ->
  String.length s <= int_max_str_digits ->
  (SemanticVersion.parse s = Ok v <->
   wellformed v /\
   (s = SemanticVersion.to_str v \/ s = SemanticVersion.to_str v ++ nl)).
Proof.
  intros _ _. split.
  - intros Hp. split; [exact (parse_wellformed s v Hp)|].
    destruct (parse_ok_match s v Hp) as (m & Hm).
    destruct (parse_of_match s m Hm) as (v' & tail & Hp' & Ht & E & _).
    rewrite Hp in Hp'. injection Hp' as <-.
    destruct Ht as [-> | ->]; [left | right]; rewrite E at 1; auto using app_nil_right.
  - intros [Hw [-> | ->]].
    + rewrite <- (app_nil_right (SemanticVersion.to_str v)).
      apply parse_of_to_str; auto.
    + apply parse_of_to_str; auto.
Qed.

Lemma parse_inverts_str_witness :
  SemanticVersion.parse ("1.2.3-rc.1+build.7" ++ nl)
  = Ok (SemanticVersion.Build 1 2 3 (Some "rc.1") (Some "build.7")) <->
  wellformed (SemanticVersion.Build 1 2 3 (Some "rc.1") (Some "build.7")) /\
  ("1.2.3-rc.1+build.7" ++ nl
   = SemanticVersion.to_str (SemanticVersion.Build 1 2 3 (Some "rc.1") (Some "build.7"))
   \/ "1.2.3-rc.1+build.7" ++ nl
      = SemanticVersion.to_str (SemanticVersion.Build 1 2 3 (Some "rc.1") (Some "build.7"))
        ++ nl).
Proof.
  apply (parse_inverts_str ("1.2.3-rc.1+build.7" ++ nl)
           (SemanticVersion.Build 1 2 3 (Some "rc.1") (Some "build.7"))).
  - reflexivity.
  - apply Nat.leb_le. reflexivity.
Defined.

(** X3: two versions with well-formed prerelease and build metadata that
    have the same text are the same version, so the changelog file and the
    tag that are named after a version belong to that version alone. *)
Theorem to_str_injective (v w : SemanticVersion.t) :
  wellformed v -> wellformed w ->
  SemanticVersion.to_str v = SemanticVersion.to_str w -> v = w.
Proof.
  intros Hv Hw E.
  pose proof (parse_of_to_str v "" Hv (or_introl eq_refl)) as Pv.
  pose proof (parse_of_to_str w "" Hw (or_introl eq_refl)) as Pw.
  rewrite E, Pw in Pv. now injection Pv.
Qed.

Lemma to_str_injective_witness :
  SemanticVersion.Build 1 2 3 None (Some "7") = SemanticVersion.Build 1 2 3 None (Some "7").
Proof.
  apply (to_str_injective (SemanticVersion.Build 1 2 3 None (Some "7"))
           (SemanticVersion.Build 1 2 3 None (Some "7"))).
  - split; [exact I|]. exists "7", []. repeat split; [discriminate | constructor].
  - split; [exact I|]. exists "7", []. repeat split; [discriminate | constructor].
  - reflexivity.
Defined.

(** X4: every release moves the version forward in the order by major,
    minor and patch, and the text of the new version differs from the text
    of the version it was made from. *)
Theorem bump_moves_forward (s : string) (v : SemanticVersion.t) (t : ReleaseType) :
  SemanticVersion.parse s = Ok v ->
  numbers_lt v (bump v t) /\
  SemanticVersion.to_str (bump v t) <> SemanticVersion.to_str v.
Proof.
  intros Hp. assert (Hlt : numbers_lt v (bump v t)).
  { destruct v as [a b c p q], t; unfold numbers_lt; simpl.
    - left. lia.
    - right. split; [reflexivity|]. left. lia.
    - right. split; [reflexivity|]. right. split; [reflexivity|]. lia. }
  split; [exact Hlt|]. intros E.
  pose proof (parse_wellformed s v Hp) as Hw.
  pose proof (parse_of_to_str _ "" (bump_wellformed v t Hw) (or_introl eq_refl)) as Pb.
  rewrite E, (parse_of_to_str v "" Hw (or_introl eq_refl)) in Pb.
  injection Pb as Pb. rewrite <- Pb in Hlt. unfold numbers_lt in Hlt. lia.
Qed.

Lemma bump_moves_forward_witness :
  numbers_lt (SemanticVersion.Build 1 9 9 None None)
             (bump (SemanticVersion.Build 1 9 9 None None) Minor) /\
  SemanticVersion.to_str (bump (SemanticVersion.Build 1 9 9 None None) Minor)
  <> SemanticVersion.to_str (SemanticVersion.Build 1 9 9 None None).
Proof.
  apply (bump_moves_forward "1.9.9" (SemanticVersion.Build 1 9 9 None None) Minor).
  reflexivity.
Defined.

(** X5: a bump of a higher rank absorbs an earlier bump of a lower rank: a
    patch bump followed by a minor bump is the minor bump, and a patch or a
    minor bump followed by a major bump is the major bump; bumps of the same
    rank add up. *)
Theorem bump_absorbs_lower (v : SemanticVersion.t) :
  bump (bump v Patch) Minor = bump v Minor /\
  bump (bump v Patch) Major = bump v Major /\
  bump (bump v Minor) Major = bump v Major /\
  SemanticVersion.patch (bump (bump v Patch) Patch) = (SemanticVersion.patch v + 2)%N /\
  SemanticVersion.minor (bump (bump v Minor) Minor) = (SemanticVersion.minor v + 2)%N /\
  SemanticVersion.major (bump (bump v Major) Major) = (SemanticVersion.major v + 2)%N.
Proof.
  destruct v as [a b c p q]. simpl. repeat split; lia.
Qed.

(* ================================================================== *)
(** ** Further properties: the messages that parse as conventional commits *)

Lemma app_cancel_left (a b c : string) : a ++ b = a ++ c -> b = c.
Proof. induction a as [|x a IH]; simpl; intros H; [exact H | injection H; auto]. Qed.

Lemma rev_str_app (a b : string) : rev_str (a ++ b) = rev_str b ++ rev_str a.
Proof.
  induction a as [|c a IH]; simpl.
  - now rewrite app_nil_right.
  - now rewrite IH, app_assoc_str.
Qed.

Lemma rev_str_involutive (s : string) : rev_str (rev_str s) = s.
Proof.
  induction s as [|c s IH]; simpl; [reflexivity|].
  rewrite rev_str_app, IH. reflexivity.
Qed.

Lemma lstrip_all (p : ascii -> bool) (a : string) :
  forallb_str p a = true -> lstrip p a = "".
Proof.
  induction a as [|c a IH]; simpl; [reflexivity|].
  rewrite andb_true_iff. intros [-> Ha]. auto.
Qed.

Lemma lstrip_app (p : ascii -> bool) (a b : string) :
  lstrip p (a ++ b) = if forallb_str p a then lstrip p b else lstrip p a ++ b.
Proof.
  induction a as [|c a IH]; simpl; [reflexivity|].
  destruct (p c); simpl; [exact IH | reflexivity].
Qed.

Lemma lstrip_stops (p : ascii -> bool) (s : string) : stops p (lstrip p s).
Proof.
  induction s as [|c s IH]; simpl; [exact I|].
  destruct (p c) eqn:Hc; [exact IH | exact Hc].
Qed.

Lemma lstrip_id (p : ascii -> bool) (s : string) : stops p s -> lstrip p s = s.
Proof. destruct s as [|c s]; simpl; [reflexivity | now intros ->]. Qed.

Lemma lstrip_keeps_last (p : ascii -> bool) (a : string) (c : ascii) :
  p c = false -> exists w, lstrip p (a ++ String c "") = w ++ String c "".
Proof.
  intros Hc. induction a as [|x a IH]; simpl.
  - rewrite Hc. now exists "".
  - destruct (p x); [exact IH | now exists (String x a)].
Qed.

Lemma rstrip_stops (p : ascii -> bool) (s : string) :
  stops p s -> stops p (rstrip p s).
Proof.
  unfold rstrip. destruct s as [|c s]; simpl; [auto|]. intros Hc.
  destruct (lstrip_keeps_last p (rev_str s) c Hc) as (w & ->).
  rewrite rev_str_app. simpl. exact Hc.
Qed.

Lemma rstrip_newline (p : ascii -> bool) (s : string) :
  p LF = true -> rstrip p (s ++ nl) = rstrip p s.
Proof.
  intros Hp. unfold rstrip, nl. rewrite rev_str_app. simpl. now rewrite Hp.
Qed.

Lemma strip_newline (s : string) :
  strip ConventionalCommit.space_or_newline (s ++ nl)
  = strip ConventionalCommit.space_or_newline s.
Proof.
  unfold strip. rewrite lstrip_app.
  destruct (forallb_str ConventionalCommit.space_or_newline s) eqn:Hall.
  - rewrite (lstrip_all _ _ Hall). reflexivity.
  - apply rstrip_newline. reflexivity.
Qed.

Lemma clean_drop_tail (raw tail : string) :
  tail = "" \/ tail = nl ->
  ConventionalCommit.clean (raw ++ tail) = ConventionalCommit.clean raw.
Proof.
  unfold ConventionalCommit.clean. intros [-> | ->].
  - now rewrite app_nil_right.
  - now rewrite strip_newline.
Qed.

Lemma replace_no_newline (s : string) :
  forallb_str not_newline (replace LF " " s) = true.
Proof.
  induction s as [|c s IH]; simpl; [reflexivity|].
  destruct (Ascii.eqb_spec c LF) as [-> | Hc]; simpl; [exact IH|].
  rewrite IH, andb_true_r. unfold not_newline, is_char.
  apply negb_true_iff, Ascii.eqb_neq. congruence.
Qed.

Lemma replace_id (s : string) :
  forallb_str not_newline s = true -> replace LF " " s = s.
Proof.
  induction s as [|c s IH]; simpl; [reflexivity|].
  rewrite andb_true_iff. intros [Hc Hs]. unfold not_newline, is_char in Hc.
  apply negb_true_iff in Hc. rewrite Ascii.eqb_sym in Hc. rewrite Hc. simpl.
  now rewrite (IH Hs).
Qed.

Lemma replace_stops (s : string) :
  stops ConventionalCommit.space_or_newline s ->
  stops ConventionalCommit.space_or_newline (replace LF " " s).
Proof.
  destruct s as [|c s]; simpl; [auto|]. intros Hc.
  destruct (Ascii.eqb_spec c LF) as [-> | _]; [discriminate | exact Hc].
Qed.

(** What [clean] leaves: no newline, and no space or newline at either end. *)
Lemma clean_shape (raw : string) :
  forallb_str not_newline (ConventionalCommit.clean raw) = true /\
  stops ConventionalCommit.space_or_newline (ConventionalCommit.clean raw) /\
  stops ConventionalCommit.space_or_newline (rev_str (ConventionalCommit.clean raw)).
Proof.
  unfold ConventionalCommit.clean. split; [apply replace_no_newline|]. split.
  - apply replace_stops. unfold strip. apply rstrip_stops, lstrip_stops.
  - rewrite rev_replace. apply replace_stops.
    unfold strip, rstrip. rewrite rev_str_involutive. apply lstrip_stops.
Qed.

Lemma clean_fixed (d : string) :
  forallb_str not_newline d = true ->
  stops ConventionalCommit.space_or_newline d ->
  stops ConventionalCommit.space_or_newline (rev_str d) ->
  ConventionalCommit.clean d = d.
Proof.
  intros Hnl Hfront Hback. unfold ConventionalCommit.clean, strip, rstrip.
  rewrite (lstrip_id _ d Hfront), (lstrip_id _ _ Hback), rev_str_involutive.
  now apply replace_id.
Qed.

Lemma lang_scope (sc : string) :
  lang (Seq (Opt (Chr (is_char "(")))
            (Seq (LazyStar (Chr is_word)) (Opt (Chr (is_char ")"))))) sc
  <-> scope_shape sc.
Proof.
  unfold scope_shape, Opt. cbn [lang]. split.
  - intros (o & r & -> & Ho & (w & c & -> & Hw & Hc)).
    exists o, w, c. apply lang_star_chr in Hw. repeat split; auto.
    + destruct Ho as [(x & -> & Hx) | ->]; [|now left].
      apply is_char_eq in Hx. subst x. now right.
    + destruct Hc as [(x & -> & Hx) | ->]; [|now left].
      apply is_char_eq in Hx. subst x. now right.
  - intros (o & w & c & -> & Ho & Hw & Hc).
    exists o, (w ++ c). repeat split.
    + destruct Ho as [-> | ->]; [now right | left].
      exists "("%char. split; [reflexivity | now apply is_char_eq].
    + exists w, c. repeat split; [now apply lang_star_chr|].
      destruct Hc as [-> | ->]; [now right | left].
      exists ")"%char. split; [reflexivity | now apply is_char_eq].
Qed.

Lemma word_not_colon (c : ascii) : is_word c = true -> not_colon c = true.
Proof.
  unfold not_colon, is_char. intros Hw. apply negb_true_iff, Ascii.eqb_neq.
  intros <-. discriminate.
Qed.

Lemma scope_no_colon (sc : string) :
  scope_shape sc -> forallb_str not_colon sc = true.
Proof.
  intros (o & w & c & -> & Ho & Hw & Hc). rewrite !forallb_str_app.
  rewrite (forallb_str_weaken is_word not_colon w word_not_colon Hw).
  destruct Ho as [-> | ->], Hc as [-> | ->]; reflexivity.
Qed.

Lemma lang_category (ty : string) :
  lang (Alt (Lit "feat") (Alt (Lit "fix") (Alt (Lit "refactor") (Lit "build")))) ty
  <-> In ty categories.
Proof.
  cbn [lang]. rewrite !lang_Lit. unfold categories. simpl.
  intuition congruence.
Qed.

Lemma category_unique (ty ty' x x' : string) :
  In ty categories -> In ty' categories ->
  ty ++ x = ty' ++ x' -> ty = ty' /\ x = x'.
Proof.
  unfold categories. simpl.
  intros [<- | [<- | [<- | [<- | []]]]] [<- | [<- | [<- | [<- | []]]]] E;
    simpl in E; try discriminate; injection E as E; auto.
Qed.

(** The parts of a message that [ConventionalCommit.parse] accepts. *)
Lemma classify_parts (str : string) (c : ConventionalCommit.t) :
  ConventionalCommit.parse str = Some c ->
  exists ty sc raw tail,
    In ty categories /\ scope_shape sc /\ (tail = "" \/ tail = nl) /\
    str = ty ++ sc ++ ":" ++ raw ++ tail /\
    c = ConventionalCommit.Build ty sc (ConventionalCommit.clean raw).
Proof.
  unfold ConventionalCommit.parse.
  destruct (re_match ConventionalCommit.semantic_re str) as [m|] eqn:Hm;
    [|discriminate].
  intros [= <-].
  unfold re_match, ConventionalCommit.semantic_re in Hm.
  apply bol_sound in Hm. destruct Hm as [_ H].
  apply group_sound in H; [|reflexivity]. destruct H as (ty & s1 & E1 & L1 & H).
  apply group_sound in H; [|reflexivity]. destruct H as (sc & s2 & E2 & L2 & H).
  apply chr_sound in H. destruct H as (s3 & E3 & H).
  apply group_sound in H; [|reflexivity]. destruct H as (raw & s4 & E4 & L4 & H).
  apply eol_sound in H. destruct H as [Ht H]. injection H as <-.
  exists ty, sc, raw, s4. subst str s1 s2 s3. cbn.
  apply lang_category in L1. apply lang_scope in L2. auto 6.
Qed.

Lemma classify_complete (ty sc rest : string) :
  In ty categories -> scope_shape sc ->
  re_match ConventionalCommit.semantic_re (ty ++ sc ++ ":" ++ rest) <> None.
Proof.
  intros Hty Hsc. apply lang_category in Hty. apply lang_scope in Hsc.
  unfold re_match, ConventionalCommit.semantic_re.
  apply bol_complete; [reflexivity|].
  apply group_complete; [reflexivity | exact Hty |].
  apply group_complete; [reflexivity | exact Hsc |].
  apply chr_complete.
  rewrite <- (app_nil_right rest).
  apply group_complete; [reflexivity | | ].
  - cbn [lang]. apply lang_star_chr. clear. induction rest; simpl; auto.
  - apply eol_complete; [now left | discriminate].
Qed.

Lemma classify_of_parts (ty sc rest : string) :
  In ty categories -> scope_shape sc ->
  ConventionalCommit.parse (ty ++ sc ++ ":" ++ rest)
  = Some (ConventionalCommit.Build ty sc (ConventionalCommit.clean rest)).
Proof.
  intros Hty Hsc.
  pose proof (classify_complete ty sc rest Hty Hsc) as Hm.
  destruct (ConventionalCommit.parse (ty ++ sc ++ ":" ++ rest)) as [c|] eqn:Hp.
  - destruct (classify_parts _ c Hp)
      as (ty' & sc' & raw & tail & Hty' & Hsc' & Ht & E & ->).
    destruct (category_unique ty ty' _ _ Hty Hty' E) as [<- E1].
    assert (Hstop : forall x, stops not_colon (":" ++ x)) by (intros x; reflexivity).
    destruct (span_unique not_colon sc sc' _ _ (scope_no_colon sc Hsc)
                (scope_no_colon sc' Hsc') (Hstop _) (Hstop _) E1) as [<- E2].
    injection E2 as ->. now rewrite (clean_drop_tail raw tail Ht).
  - unfold ConventionalCommit.parse in Hp.
    destruct (re_match ConventionalCommit.semantic_re _); [discriminate | congruence].
Qed.

(** X6: among the messages of ASCII text, [ConventionalCommit.parse]
    accepts exactly those made of one of the four types, a scope of
    letters, digits and underscores with or without a parenthesis on either
    side, a colon and any text whatever, newlines included; the commit has
    that type, that scope with its parentheses, and the cleaned text after
    the colon as its description.  (Beyond ASCII the word class of
    [semantic_re] admits the letters and digits of other scripts in the
    scope.) *)
Theorem classify_exactly (str : string) (c : ConventionalCommit.t) :
  ascii_text str ->
  (ConventionalCommit.parse str = Some c <->
   exists ty sc rest,
     In ty categories /\ scope_shape sc /\
     str = ty ++ sc ++ ":" ++ rest /\
     c = ConventionalCommit.Build ty sc (ConventionalCommit.clean rest)).
Proof.
  intros _. split.
  - intros Hp.
    destruct (classify_parts str c Hp) as (ty & sc & raw & tail & Hty & Hsc & Ht & -> & ->).
    exists ty, sc, (raw ++ tail). rewrite (clean_drop_tail raw tail Ht). auto.
  - intros (ty & sc & rest & Hty & Hsc & -> & ->). now apply classify_of_parts.
Qed.

Lemma classify_exactly_witness :
  ConventionalCommit.parse ("fix(ui_2): align" ++ nl ++ "the buttons ")
  = Some (ConventionalCommit.Build "fix" "(ui_2)" "align the buttons") <->
  exists ty sc rest,
    In ty categories /\ scope_shape sc /\
    "fix(ui_2): align" ++ nl ++ "the buttons " = ty ++ sc ++ ":" ++ rest /\
    ConventionalCommit.Build "fix" "(ui_2)" "align the buttons"
    = ConventionalCommit.Build ty sc (ConventionalCommit.clean rest).
Proof.
  apply (classify_exactly ("fix(ui_2): align" ++ nl ++ "the buttons ")
           (ConventionalCommit.Build "fix" "(ui_2)" "align the buttons")).
  reflexivity.
Defined.

(** X7: the description of every commit that [ConventionalCommit.parse]
    returns is a single line with nothing left to trim: it holds no newline,
    it neither begins nor ends with a space or a newline, and cleaning it
    again changes nothing. *)
Theorem description_is_one_trimmed_line (str : string) (c : ConventionalCommit.t) :
  ConventionalCommit.parse str = Some c ->
  forallb_str not_newline (ConventionalCommit.description c) = true /\
  stops ConventionalCommit.space_or_newline (ConventionalCommit.description c) /\
  stops ConventionalCommit.space_or_newline (rev_str (ConventionalCommit.description c)) /\
  ConventionalCommit.clean (ConventionalCommit.description c)
  = ConventionalCommit.description c.
Proof.
  intros Hp.
  destruct (classify_parts str c Hp) as (ty & sc & raw & tail & _ & _ & _ & _ & ->).
  simpl. destruct (clean_shape raw) as (H1 & H2 & H3).
  repeat split; auto. now apply clean_fixed.
Qed.

Lemma description_is_one_trimmed_line_witness :
  forallb_str not_newline "a b" = true /\
  stops ConventionalCommit.space_or_newline "a b" /\
  stops ConventionalCommit.space_or_newline (rev_str "a b") /\
  ConventionalCommit.clean "a b" = "a b".
Proof.
  apply (description_is_one_trimmed_line ("fix(ui):  a" ++ nl ++ "b " ++ nl ++ nl)
           (ConventionalCommit.Build "fix" "(ui)" "a b")).
  reflexivity.
Defined.

Lemma to_str_unscoped (ty d : string) :
  ConventionalCommit.to_str (ConventionalCommit.Build ty "" d)
  = ty ++ "" ++ ":" ++ String " " d.
Proof. unfold ConventionalCommit.to_str. simpl. now rewrite !app_assoc_str. Qed.

Lemma to_str_scoped (ty sc d : string) :
  sc <> "" ->
  ConventionalCommit.to_str (ConventionalCommit.Build ty sc d)
  = ty ++ ("(" ++ sc ++ ")") ++ ":" ++ String " " d.
Proof.
  intros Hsc. unfold ConventionalCommit.to_str. simpl.
  destruct sc as [|x sc]; [congruence|]. cbn [length Nat.ltb Nat.leb].
  str_norm. reflexivity.
Qed.

Lemma clean_leading_space (d : string) :
  ConventionalCommit.clean (String " " d) = ConventionalCommit.clean d.
Proof. reflexivity. Qed.

(** X8: a commit without a scope survives rendering: for every commit that
    [ConventionalCommit.parse] returns with an empty scope, parsing the text
    that [__str__] renders gives the same commit. *)
Theorem unscoped_commit_round_trip (str : string) (c : ConventionalCommit.t) :
  ConventionalCommit.parse str = Some c ->
  ConventionalCommit.scope c = "" ->
  ConventionalCommit.parse (ConventionalCommit.to_str c) = Some c.
Proof.
  intros Hp Hsc.
  destruct (classify_parts str c Hp) as (ty & sc & raw & tail & Hty & _ & _ & _ & ->).
  simpl in Hsc. subst sc. rewrite to_str_unscoped.
  rewrite classify_of_parts; [|exact Hty | exists "", "", ""; auto].
  rewrite clean_leading_space. destruct (clean_shape raw) as (H1 & H2 & H3).
  now rewrite (clean_fixed _ H1 H2 H3).
Qed.

Lemma unscoped_commit_round_trip_witness :
  ConventionalCommit.parse
    (ConventionalCommit.to_str (ConventionalCommit.Build "feat" "" "line one line two"))
  = Some (ConventionalCommit.Build "feat" "" "line one line two").
Proof.
  apply (unscoped_commit_round_trip ("feat: line one" ++ nl ++ "line two")
           (ConventionalCommit.Build "feat" "" "line one line two")).
  - reflexivity.
  - reflexivity.
Defined.

(** X9: a commit with a scope never survives rendering: for every commit
    that [ConventionalCommit.parse] returns with a non-empty scope, the text
    that [__str__] renders does not parse back to that commit. *)
Theorem scoped_commit_never_round_trips (str : string) (c : ConventionalCommit.t) :
  ConventionalCommit.parse str = Some c ->
  ConventionalCommit.scope c <> "" ->
  ConventionalCommit.parse (ConventionalCommit.to_str c) <> Some c.
Proof.
  intros Hp Hne Hback.
  destruct (classify_parts str c Hp) as (ty & sc & raw & tail & Hty & Hsc & _ & _ & ->).
  simpl in Hne. rewrite (to_str_scoped ty sc _ Hne) in Hback.
  destruct (classify_parts _ _ Hback)
    as (ty' & sc' & raw' & tail' & Hty' & Hsc' & _ & E & Hc).
  injection Hc as <- <- _.
  apply app_cancel_left in E.
  assert (Hstop : forall x, stops not_colon (":" ++ x)) by (intros x; reflexivity).
  assert (Hwrapped : forallb_str not_colon ("(" ++ sc ++ ")") = true).
  { simpl. rewrite forallb_str_app, (scope_no_colon sc Hsc). reflexivity. }
  destruct (span_unique not_colon _ sc _ _ Hwrapped (scope_no_colon sc Hsc)
              (Hstop _) (Hstop _) E) as [E' _].
  apply (f_equal length) in E'. simpl in E'. rewrite length_app_str in E'.
  simpl in E'. lia.
Qed.

Lemma scoped_commit_never_round_trips_witness :
  ConventionalCommit.parse
    (ConventionalCommit.to_str (ConventionalCommit.Build "feat" "(api)" "add endpoint"))
  <> Some (ConventionalCommit.Build "feat" "(api)" "add endpoint").
Proof.
  apply (scoped_commit_never_round_trips "feat(api): add endpoint"
           (ConventionalCommit.Build "feat" "(api)" "add endpoint")).
  - reflexivity.
  - discriminate.
Defined.

(* ================================================================== *)
(** ** Further properties: tags, the changelog and the release *)

(** X10: [find_tag_by_name] returns the first tag, in the order of the tag
    list, whose name is the given name or that name after a "v"; it returns
    None exactly when no tag has such a name. *)
Theorem find_tag_first_match (repo : Repo) (name' : string) :
  match find_tag_by_name repo name' with
  | Some r =>
      exists before after,
        tags repo = (before ++ r :: after)%list /\
        tag_matches name' r /\
        Forall (fun x => ~ tag_matches name' x) before
  | None => Forall (fun x => ~ tag_matches name' x) (tags repo)
  end.
Proof.
  unfold find_tag_by_name, tag_matches.
  induction (tags repo) as [|x ts IH]; cbn [find]; [constructor|].
  destruct (String.eqb (name x) name' || String.eqb (name x) ("v" ++ name')) eqn:Hm.
  - exists [], ts. split; [reflexivity|]. split; [|constructor].
    apply orb_true_iff in Hm. now rewrite !String.eqb_eq in Hm.
  - apply orb_false_iff in Hm. rewrite !String.eqb_neq in Hm.
    assert (Hx : ~ (name x = name' \/ name x = "v" ++ name')) by tauto.
    destruct (find _ ts) as [r|].
    + destruct IH as (before & after & -> & Hr & Hb).
      exists (x :: before), after. auto.
    + constructor; auto.
Qed.

Lemma change_log_boundary (repo : Repo) (cur_ver : SemanticVersion.t) :
  change_log repo cur_ver
  = (r <- boundary repo cur_ver ;;
     Ok (groupby ConventionalCommit.type
           (sorted ConventionalCommit.type
              (conventional (iter_commits_to repo (Some (commit_hexsha r))))))).
Proof.
  unfold change_log, boundary.
  destruct (find_tag_by_name repo (SemanticVersion.to_str cur_ver)); simpl;
    [reflexivity|].
  destruct (last_tag repo); reflexivity.
Qed.

Lemma boundary_ok_iff (repo : Repo) (cur_ver : SemanticVersion.t) :
  (tags repo <> [] -> exists r, boundary repo cur_ver = Ok r /\ In r (tags repo)) /\
  (tags repo = [] -> boundary repo cur_ver = Raise (IndexError "pop from empty list")).
Proof.
  unfold boundary, find_tag_by_name, last_tag, pop. split.
  - intros Hne. destruct (find _ (tags repo)) as [r|] eqn:Hf.
    + exists r. split; [reflexivity|]. now apply find_some in Hf.
    + destruct (rev (tags repo)) as [|x l] eqn:Hr.
      * apply (f_equal (@rev _)) in Hr. rewrite rev_involutive in Hr. contradiction.
      * exists x. split; [reflexivity|]. apply in_rev. rewrite Hr. now left.
  - intros ->. reflexivity.
Qed.

(** X11: for the version that [parse] returned, [change_log] returns a
    changelog exactly when the repository has at least one tag, whatever the
    names of the tags and whatever the commits: a tag named after the
    version or, failing that, the last tag gives the boundary, and nothing
    after that can raise. *)
Theorem change_log_returns_iff_tagged
        (s : string) (v : SemanticVersion.t) (repo : Repo) :
  SemanticVersion.parse s = Ok v ->
  (tags repo <> [] <-> exists raw, change_log repo v = Ok raw).
Proof.
  intros _. rewrite change_log_boundary.
  destruct (boundary_ok_iff repo v) as [Hsome Hnone]. split.
  - intros Hne. destruct (Hsome Hne) as (r & -> & _). simpl. eauto.
  - intros (raw & H) Hnil. rewrite (Hnone Hnil) in H. discriminate.
Qed.

Lemma change_log_returns_iff_tagged_witness :
  tags example_repo <> [] <->
  exists raw, change_log example_repo (SemanticVersion.Build 1 2 3 None None) = Ok raw.
Proof.
  apply (change_log_returns_iff_tagged "1.2.3" (SemanticVersion.Build 1 2 3 None None)
           example_repo).
  reflexivity.
Defined.

Section GroupingMore.
Context {A : Type}.
Variable key : A -> string.

Lemma groupby_concat (l : list A) : List.concat (map snd (groupby key l)) = l.
Proof.
  induction l as [|x l IH]; simpl; [reflexivity|].
  destruct (groupby key l) as [|[k run] more]; simpl in *.
  - now rewrite <- IH.
  - destruct (String.eqb (key x) k); simpl; now rewrite <- IH.
Qed.

Lemma insert_by_perm (x : A) (l : list A) : Permutation (insert_by key x l) (x :: l).
Proof.
  induction l as [|y l IH]; simpl; [apply Permutation_refl|].
  destruct (String.ltb (key y) (key x)); [|apply Permutation_refl].
  eapply Permutation_trans; [apply perm_skip, IH | apply perm_swap].
Qed.

Lemma sorted_perm (l : list A) : Permutation (sorted key l) l.
Proof.
  induction l as [|x l IH]; simpl; [constructor|].
  eapply Permutation_trans; [apply insert_by_perm | now apply perm_skip].
Qed.
End GroupingMore.

Lemma conventional_in (cs : list Commit) (cc : ConventionalCommit.t) :
  In cc (conventional cs) <->
  exists i, In i cs /\ ConventionalCommit.parse (message i) = Some cc.
Proof.
  induction cs as [|i cs IH]; simpl.
  - split; [intros [] | intros (i & [] & _)].
  - destruct (ConventionalCommit.parse (message i)) as [c|] eqn:Hp; simpl;
      rewrite IH; split.
    + intros [<- | (j & Hj & Hpj)]; [exists i; auto | exists j; auto].
    + intros (j & [<- | Hj] & Hpj); [left; congruence | right; exists j; auto].
    + intros (j & Hj & Hpj). exists j; auto.
    + intros (j & [<- | Hj] & Hpj); [congruence | exists j; auto].
Qed.

(** X12: grouping neither loses nor repeats a commit: the commits of all
    the groups of the changelog, taken together, are the in-scope commits
    whose message parses as a conventional commit, each as often as it
    occurs, and every other in-scope commit is left out. *)
Theorem changelog_holds_each_conventional_commit_once
        (repo : Repo) (cur_ver : SemanticVersion.t) (raw : RawChangelog) :
  change_log repo cur_ver = Ok raw ->
  exists r,
    boundary repo cur_ver = Ok r /\
    Permutation (List.concat (map snd raw))
                (conventional (iter_commits_to repo (Some (commit_hexsha r)))) /\
    forall cc,
      In cc (List.concat (map snd raw)) <->
      exists i, In i (iter_commits_to repo (Some (commit_hexsha r))) /\
                ConventionalCommit.parse (message i) = Some cc.
Proof.
  rewrite change_log_boundary.
  destruct (boundary repo cur_ver) as [r|e]; simpl; [|discriminate].
  intros [= <-]. exists r. split; [reflexivity|].
  rewrite groupby_concat. split; [apply sorted_perm|].
  intros cc. rewrite sorted_in. apply conventional_in.
Qed.

Lemma changelog_holds_each_conventional_commit_once_witness :
  exists r,
    boundary example_repo (SemanticVersion.Build 1 2 3 None None) = Ok r /\
    Permutation
      (List.concat (map snd
         [("feat", [ConventionalCommit.Build "feat" "" "x"]);
          ("fix", [ConventionalCommit.Build "fix" "" "y";
                   ConventionalCommit.Build "fix" "(ui)" "w"])]))
      (conventional (iter_commits_to example_repo (Some (commit_hexsha r)))) /\
    forall cc,
      In cc (List.concat (map snd
         [("feat", [ConventionalCommit.Build "feat" "" "x"]);
          ("fix", [ConventionalCommit.Build "fix" "" "y";
                   ConventionalCommit.Build "fix" "(ui)" "w"])])) <->
      exists i, In i (iter_commits_to example_repo (Some (commit_hexsha r))) /\
                ConventionalCommit.parse (message i) = Some cc.
Proof.
  apply (changelog_holds_each_conventional_commit_once example_repo
           (SemanticVersion.Build 1 2 3 None None)).
  reflexivity.
Defined.

Lemma strict_keys_nodup {A : Type} (G : list (string * A)) :
  StronglySorted key_lt G -> NoDup (map fst G).
Proof.
  induction 1 as [|g G Hs IH Hg]; simpl; constructor; [|exact IH].
  intros Hin. apply in_map_iff in Hin. destruct Hin as (g' & E & Hin').
  rewrite Forall_forall in Hg. pose proof (Hg g' Hin') as Hlt.
  unfold key_lt in Hlt. rewrite E, ltb_irrefl in Hlt. discriminate.
Qed.

(** X13: the changelog has at most four groups; the key of every group is
    one of feat, fix, refactor and build, and every commit of a group has
    the key of the group as its type. *)
Theorem changelog_groups_are_categories
        (repo : Repo) (cur_ver : SemanticVersion.t) (raw : RawChangelog) :
  change_log repo cur_ver = Ok raw ->
  List.length raw <= 4 /\
  Forall (fun g => In (fst g) categories /\
                   Forall (fun c => ConventionalCommit.type c = fst g) (snd g)) raw.
Proof.
  rewrite change_log_boundary.
  destruct (boundary repo cur_ver) as [r|e]; simpl; [|discriminate].
  intros [= <-].
  set (ccs := conventional (iter_commits_to repo (Some (commit_hexsha r)))).
  destruct (groupby_sorted ConventionalCommit.type
              (sorted ConventionalCommit.type ccs)
              (sorted_is_sorted ConventionalCommit.type ccs)) as (Hs & Hg & _).
  assert (Hall : Forall (fun g => In (fst g) categories /\
                   Forall (fun c => ConventionalCommit.type c = fst g) (snd g))
                   (groupby ConventionalCommit.type (sorted ConventionalCommit.type ccs))).
  { apply Forall_forall. intros [t cs] Hin. simpl.
    destruct (Hg t cs Hin) as [Hne Hcs].
    assert (Hty : Forall (fun c => ConventionalCommit.type c = t) cs).
    { rewrite Hcs. apply Forall_forall. intros c Hc. apply filter_In in Hc.
      destruct Hc as [_ Hc]. now apply String.eqb_eq in Hc. }
    split; [|exact Hty].
    destruct cs as [|c cs]; [congruence|].
    assert (Hc : In c (sorted ConventionalCommit.type ccs)).
    { assert (Hc : In c (c :: cs)) by now left.
      rewrite Hcs in Hc. now apply filter_In in Hc. }
    apply sorted_in, conventional_in in Hc. destruct Hc as (i & _ & Hp).
    destruct (classify_parts _ _ Hp) as (ty & sc & raw & tail & Hcat & _ & _ & _ & ->).
    inversion Hty as [|? ? Ht _]; subst. exact Hcat. }
  split; [|exact Hall].
  rewrite <- (length_map fst).
  apply (NoDup_incl_length (strict_keys_nodup _ Hs) (l' := categories)).
  intros k Hk. apply in_map_iff in Hk. destruct Hk as (g & <- & Hg').
  rewrite Forall_forall in Hall. now destruct (Hall g Hg').
Qed.

Lemma changelog_groups_are_categories_witness :
  List.length [("feat", [ConventionalCommit.Build "feat" "" "x"]);
               ("fix", [ConventionalCommit.Build "fix" "" "y";
                        ConventionalCommit.Build "fix" "(ui)" "w"])] <= 4 /\
  Forall (fun g => In (fst g) categories /\
                   Forall (fun c => ConventionalCommit.type c = fst g) (snd g))
         [("feat", [ConventionalCommit.Build "feat" "" "x"]);
          ("fix", [ConventionalCommit.Build "fix" "" "y";
                   ConventionalCommit.Build "fix" "(ui)" "w"])].
Proof.
  apply (changelog_groups_are_categories example_repo
           (SemanticVersion.Build 1 2 3 None None)).
  reflexivity.
Defined.

Lemma iter_commits_prefix (pre post : list Commit) (sha : string) :
  In sha (map hexsha pre) ->
  fst (iter_commits_to_from (pre ++ post)%list (Some sha))
  = fst (iter_commits_to_from pre (Some sha)).
Proof.
  induction pre as [|c pre IH]; simpl; [intros []|].
  intros Hin. destruct (String.eqb_spec (hexsha c) sha) as [E | E]; simpl;
    [reflexivity|].
  destruct Hin as [Hc | Hin]; [contradiction|].
  specialize (IH Hin).
  destruct (iter_commits_to_from (pre ++ post)%list (Some sha)),
           (iter_commits_to_from pre (Some sha)).
  simpl in *. now rewrite IH.
Qed.

(** X14: the history behind the boundary does not reach the changelog: when
    the commit of the boundary tag is among the first commits of the stream,
    replacing everything after those commits by anything else leaves the
    changelog as it is. *)
Theorem changelog_ignores_older_history
        (ts : list TagReference) (pre post post' : list Commit)
        (cur_ver : SemanticVersion.t) (r : TagReference) :
  boundary {| tags := ts; commits := (pre ++ post)%list |} cur_ver = Ok r ->
  In (commit_hexsha r) (map hexsha pre) ->
  change_log {| tags := ts; commits := (pre ++ post')%list |} cur_ver
  = change_log {| tags := ts; commits := (pre ++ post)%list |} cur_ver.
Proof.
  intros Hb Hin. rewrite !change_log_boundary.
  change (boundary {| tags := ts; commits := (pre ++ post')%list |} cur_ver)
    with (boundary {| tags := ts; commits := (pre ++ post)%list |} cur_ver).
  rewrite Hb. simpl. unfold iter_commits_to. simpl.
  now rewrite !(iter_commits_prefix pre _ _ Hin).
Qed.

Lemma changelog_ignores_older_history_witness :
  change_log
    {| tags := [Build_TagReference "v1.0.0" "c2"];
       commits := ([Build_Commit "c3" "fix: y"; Build_Commit "c2" "feat: old"]
                   ++ [Build_Commit "c0" "fix: rewritten"])%list |}
    (SemanticVersion.Build 1 0 0 None None)
  = change_log
      {| tags := [Build_TagReference "v1.0.0" "c2"];
         commits := ([Build_Commit "c3" "fix: y"; Build_Commit "c2" "feat: old"]
                     ++ [Build_Commit "c1" "feat: first"])%list |}
      (SemanticVersion.Build 1 0 0 None None).
Proof.
  apply (changelog_ignores_older_history
           [Build_TagReference "v1.0.0" "c2"]
           [Build_Commit "c3" "fix: y"; Build_Commit "c2" "feat: old"]
           [Build_Commit "c1" "feat: first"]
           [Build_Commit "c0" "fix: rewritten"]
           (SemanticVersion.Build 1 0 0 None None)
           (Build_TagReference "v1.0.0" "c2")).
  - reflexivity.
  - simpl. auto.
Defined.

Lemma contains_refl (a : string) : contains a a.
Proof. exists "", "". simpl. now rewrite app_nil_right. Qed.

Lemma contains_inside (x a y piece : string) :
  contains a piece -> contains (x ++ a ++ y) piece.
Proof.
  intros (b & c & ->). exists (x ++ b), (c ++ y). now rewrite !app_assoc_str.
Qed.

Lemma contains_trans (a b c : string) : contains a b -> contains b c -> contains a c.
Proof.
  intros (x & y & ->) Hc. now apply contains_inside.
Qed.

Lemma join_contains (sep x : string) (xs : list string) :
  In x xs -> contains (join sep xs) x.
Proof.
  unfold join. induction xs as [|y xs IH]; [intros []|].
  intros [-> | Hin].
  - destruct xs as [|z xs]; [apply contains_refl|].
    change (String.concat sep (x :: z :: xs)) with (x ++ sep ++ String.concat sep (z :: xs)).
    exists "", (sep ++ String.concat sep (z :: xs)). reflexivity.
  - destruct xs as [|z xs]; [destruct Hin|].
    change (String.concat sep (y :: z :: xs)) with (y ++ sep ++ String.concat sep (z :: xs)).
    destruct (IH Hin) as (b & c & ->).
    exists (y ++ sep ++ b), c. now rewrite !app_assoc_str.
Qed.

Lemma render_group_section (out : string) (td : string * list ConventionalCommit.t) :
  render_group out td = out ++ section_text td.
Proof.
  destruct td as [t d]. unfold render_group, section_text. simpl.
  str_norm. reflexivity.
Qed.

Lemma render_sections (m : RawChangelog) : forall out,
  fold_left render_group m out = out ++ join "" (map section_text m).
Proof.
  unfold join. induction m as [|td m IH]; intros out.
  - simpl. now rewrite app_nil_right.
  - cbn [fold_left map]. rewrite IH, render_group_section, app_assoc_str. f_equal.
    destruct m as [|td' m]; [simpl; now rewrite app_nil_right | reflexivity].
Qed.

Lemma section_in_document (ver : SemanticVersion.t) (m : RawChangelog)
      (td : string * list ConventionalCommit.t) :
  In td m -> contains (render_basic ver m) (section_text td).
Proof.
  intros Hin. unfold render_basic. rewrite render_sections.
  rewrite <- (app_nil_right (join "" (map section_text m))).
  apply contains_inside, join_contains, in_map, Hin.
Qed.

Lemma line_in_section (t : string) (d : list ConventionalCommit.t)
      (cc : ConventionalCommit.t) :
  In cc d ->
  contains (section_text (t, d)) ("-. " ++ ConventionalCommit.description cc).
Proof.
  intros Hin.
  replace (section_text (t, d))
    with (("## " ++ t ++ " " ++ nl ++ nl)
          ++ join nl (map (fun i => "-. " ++ ConventionalCommit.description i) d)
          ++ nl ++ nl)
    by (unfold section_text; simpl; now rewrite !app_assoc_str).
  apply contains_inside, join_contains.
  apply (in_map (fun i => "-. " ++ ConventionalCommit.description i)), Hin.
Qed.

(** X15: the document of a release shows every in-scope commit whose message
    parses as a conventional commit: it contains a section whose heading is
    the type of the commit and whose lines include the description of the
    commit. *)
Theorem release_document_lists_commits
        (version_file : string) (t : ReleaseType) (repo : Repo)
        (v' : SemanticVersion.t) (log : string) :
  release version_file t repo = Ok (v', log) ->
  exists v r,
    SemanticVersion.parse version_file = Ok v /\ boundary repo v = Ok r /\
    forall i cc,
      In i (iter_commits_to repo (Some (commit_hexsha r))) ->
      ConventionalCommit.parse (message i) = Some cc ->
      exists d,
        In cc d /\
        contains log (section_text (ConventionalCommit.type cc, d)) /\
        contains log ("## " ++ ConventionalCommit.type cc ++ " " ++ nl ++ nl) /\
        contains log ("-. " ++ ConventionalCommit.description cc).
Proof.
  unfold release.
  destruct (SemanticVersion.parse version_file) as [v|e] eqn:Hv; simpl; [|discriminate].
  rewrite change_log_boundary.
  destruct (boundary repo v) as [r|e] eqn:Hr; simpl; [|discriminate].
  intros [= <- <-]. exists v, r. split; [reflexivity|]. split; [exact Hr|].
  intros i cc Hi Hp.
  set (ccs := conventional (iter_commits_to repo (Some (commit_hexsha r)))).
  destruct (groupby_sorted ConventionalCommit.type
              (sorted ConventionalCommit.type ccs)
              (sorted_is_sorted ConventionalCommit.type ccs)) as (_ & Hg & Hk).
  assert (Hcc : In cc (sorted ConventionalCommit.type ccs)).
  { apply sorted_in, conventional_in. now exists i. }
  pose proof (Hk cc Hcc) as Hkey. apply in_map_iff in Hkey.
  destruct Hkey as ([k d] & Ek & Hin). simpl in Ek. subst k.
  destruct (Hg _ d Hin) as [_ Hd].
  assert (Hcd : In cc d).
  { rewrite Hd. apply filter_In. split; [exact Hcc|].
    unfold has_key. apply String.eqb_refl. }
  exists d. split; [exact Hcd|].
  pose proof (section_in_document (bump v t) _ _ Hin) as Hsec.
  split; [exact Hsec|]. split.
  - apply (contains_trans _ _ _ Hsec).
    exists "", (join nl (map (fun i => "-. " ++ ConventionalCommit.description i) d)
                ++ nl ++ nl).
    unfold section_text. simpl. now rewrite !app_assoc_str.
  - apply (contains_trans _ _ _ Hsec). now apply line_in_section.
Qed.

Lemma release_document_lists_commits_witness :
  exists v r,
    SemanticVersion.parse "1.2.3" = Ok v /\ boundary example_repo v = Ok r /\
    forall i cc,
      In i (iter_commits_to example_repo (Some (commit_hexsha r))) ->
      ConventionalCommit.parse (message i) = Some cc ->
      exists d,
        In cc d /\
        contains (title ++ "1.3.0 " ++ nl ++ nl
                  ++ "## feat " ++ nl ++ nl ++ "-. x" ++ nl ++ nl
                  ++ "## fix " ++ nl ++ nl ++ "-. y" ++ nl ++ "-. w" ++ nl ++ nl)
                 (section_text (ConventionalCommit.type cc, d)) /\
        contains (title ++ "1.3.0 " ++ nl ++ nl
                  ++ "## feat " ++ nl ++ nl ++ "-. x" ++ nl ++ nl
                  ++ "## fix " ++ nl ++ nl ++ "-. y" ++ nl ++ "-. w" ++ nl ++ nl)
                 ("## " ++ ConventionalCommit.type cc ++ " " ++ nl ++ nl) /\
        contains (title ++ "1.3.0 " ++ nl ++ nl
                  ++ "## feat " ++ nl ++ nl ++ "-. x" ++ nl ++ nl
                  ++ "## fix " ++ nl ++ nl ++ "-. y" ++ nl ++ "-. w" ++ nl ++ nl)
                 ("-. " ++ ConventionalCommit.description cc).
Proof.
  apply (release_document_lists_commits "1.2.3" Minor example_repo
           (SemanticVersion.Build 1 3 0 None None)).
  reflexivity.
Defined.

(** X16: the version that a release returns can be stored and read again:
    dumped to the version file it is loaded back unchanged, also when a
    newline has been added after it, so the next release starts from it. *)
Theorem released_version_reloads
        (version_file : string) (t : ReleaseType) (repo : Repo)
        (v' : SemanticVersion.t) (log fp : string) (fs : Files) :
  release version_file t repo = Ok (v', log) ->
  load fp (dump v' fp fs) = Ran (Ok v') /\
  load fp (write_file fp (SemanticVersion.to_str v' ++ nl) fs) = Ran (Ok v').
Proof.
  unfold release.
  destruct (SemanticVersion.parse version_file) as [v|e] eqn:Hp; simpl; [|discriminate].
  destruct (change_log repo v) as [raw|e]; simpl; [|discriminate].
  intros [= <- <-].
  pose proof (bump_wellformed v t (parse_wellformed _ _ Hp)) as Hw.
  unfold load, dump, write_file. rewrite String.eqb_refl.
  rewrite (read_version_text _ nl Hw (or_intror eq_refl)).
  rewrite (parse_of_to_str _ nl Hw (or_intror eq_refl)).
  rewrite <- (app_nil_right (SemanticVersion.to_str (bump v t))) at 1.
  rewrite (read_version_text _ "" Hw (or_introl eq_refl)).
  rewrite (parse_of_to_str _ "" Hw (or_introl eq_refl)). auto.
Qed.

Lemma released_version_reloads_witness :
  load "VERSION" (dump (SemanticVersion.Build 1 3 0 None None) "VERSION" (fun _ => None))
  = Ran (Ok (SemanticVersion.Build 1 3 0 None None)) /\
  load "VERSION"
       (write_file "VERSION"
          (SemanticVersion.to_str (SemanticVersion.Build 1 3 0 None None) ++ nl)
          (fun _ => None))
  = Ran (Ok (SemanticVersion.Build 1 3 0 None None)).
Proof.
  apply (released_version_reloads "1.2.3" Minor example_repo
           (SemanticVersion.Build 1 3 0 None None)
           (title ++ "1.3.0 " ++ nl ++ nl
            ++ "## feat " ++ nl ++ nl ++ "-. x" ++ nl ++ nl
            ++ "## fix " ++ nl ++ nl ++ "-. y" ++ nl ++ "-. w" ++ nl ++ nl)).
  reflexivity.
Defined.

(** X17: the commit that a release makes is never an entry of a changelog:
    its message, "chore: release" and the version, does not parse as a
    conventional commit, whatever the version. *)
Theorem release_commit_is_not_conventional (ver : SemanticVersion.t) :
  ConventionalCommit.parse (release_commit_message ver) = None.
Proof.
  destruct (ConventionalCommit.parse (release_commit_message ver)) as [c|] eqn:Hp;
    [|reflexivity].
  destruct (classify_parts _ c Hp) as (ty & sc & raw & tail & Hty & _ & _ & E & _).
  unfold release_commit_message, categories in *. simpl in Hty, E.
  destruct Hty as [<- | [<- | [<- | [<- | []]]]]; discriminate.
Qed.




(* ================================================================== *)
(** ** Further properties: what a release returns, and line endings *)

(** X19: what [release] returns, in full, when the version file parses and
    the repository has a tag.  The boundary is the tag found for the text
    of the version as parsed, before the bump, or else the last tag; the
    changelog has one group for each type that some in-scope conventional
    commit has, in ascending order of type, holding the commits of that
    type in stream order; the returned version has the number of the
    release type raised by one, the lower numbers at zero, and the
    prerelease and build metadata as parsed; and the document is the title
    with the text of that version, followed for each group by a heading
    with its type and one line for the description of each of its
    commits. *)
Theorem release_returns_bumped_version_and_document
        (version_file : string) (t : ReleaseType) (repo : Repo)
        (v : SemanticVersion.t) :
  SemanticVersion.parse version_file = Ok v ->
  tags repo <> [] ->
  String.length version_file <= int_max_str_digits ->
  exists r raw,
    (find_tag_by_name repo (SemanticVersion.to_str v) = Some r \/
     (find_tag_by_name repo (SemanticVersion.to_str v) = None /\
      last_tag repo = Ok r)) /\
    StronglySorted key_lt raw /\
    (forall ty cs,
        In (ty, cs) raw <->
        cs <> [] /\
        cs = filter (has_type ty)
               (conventional (iter_commits_to repo (Some (commit_hexsha r))))) /\
    let v' :=
      match t with
      | Major => SemanticVersion.Build (SemanticVersion.major v + 1) 0 0
                   (SemanticVersion.prerelease v) (SemanticVersion.build_metadata v)
      | Minor => SemanticVersion.Build (SemanticVersion.major v)
                   (SemanticVersion.minor v + 1) 0
                   (SemanticVersion.prerelease v) (SemanticVersion.build_metadata v)
      | Patch => SemanticVersion.Build (SemanticVersion.major v)
                   (SemanticVersion.minor v) (SemanticVersion.patch v + 1)
                   (SemanticVersion.prerelease v) (SemanticVersion.build_metadata v)
      end in
    release version_file t repo
    = Ok (v',
          title ++ SemanticVersion.to_str v' ++ " " ++ nl ++ nl
          ++ join ""
               (map (fun td =>
                       "## " ++ fst td ++ " " ++ nl ++ nl
                       ++ join nl (map (fun i => "-. " ++ ConventionalCommit.description i)
                                       (snd td))
                       ++ nl ++ nl)
                    raw)).
Proof.
  intros Hp Hne _.
  destruct (boundary_ok_iff repo v) as [Hsome _].
  destruct (Hsome Hne) as (r & Hb & _).
  pose proof (change_log_boundary repo v) as Hc. rewrite Hb in Hc. cbn [bind] in Hc.
  set (ccs := conventional (iter_commits_to repo (Some (commit_hexsha r)))) in *.
  destruct (grouping_by_category ccs) as (Hs & Hk & Hg).
  exists r, (groupby ConventionalCommit.type (sorted ConventionalCommit.type ccs)).
  fold ccs. split.
  { unfold boundary in Hb.
    destruct (find_tag_by_name repo (SemanticVersion.to_str v)) as [r'|].
    - injection Hb as ->. now left.
    - right. auto. }
  split; [exact Hs|]. split.
  { intros ty cs. split; [apply Hg|].
    intros [Hcs ->].
    destruct (filter (has_type ty) ccs) as [|c l] eqn:Hf; [congruence|].
    assert (Hin : In c (filter (has_type ty) ccs)) by (rewrite Hf; now left).
    apply filter_In in Hin. destruct Hin as [Hin Hty]. apply String.eqb_eq in Hty.
    assert (Hkey : In ty (map fst (groupby ConventionalCommit.type
                                     (sorted ConventionalCommit.type ccs)))).
    { apply Hk. now exists c. }
    apply in_map_iff in Hkey. destruct Hkey as ([ty' cs'] & E & Hin').
    simpl in E. subst ty'. destruct (Hg ty cs' Hin') as [_ E].
    rewrite Hf in E. now rewrite <- E. }
  intros v'. unfold release. rewrite Hp. cbn [bind]. rewrite Hc. cbn [bind].
  assert (Hv : bump v t = v') by (destruct v, t; reflexivity).
  rewrite Hv. unfold render_basic. rewrite render_sections.
  rewrite !app_assoc_str. reflexivity.
Qed.

Lemma release_returns_bumped_version_and_document_witness :
  exists r raw,
    (find_tag_by_name example_repo
       (SemanticVersion.to_str (SemanticVersion.Build 1 2 3 None None)) = Some r \/
     (find_tag_by_name example_repo
        (SemanticVersion.to_str (SemanticVersion.Build 1 2 3 None None)) = None /\
      last_tag example_repo = Ok r)) /\
    StronglySorted key_lt raw /\
    (forall ty cs,
        In (ty, cs) raw <->
        cs <> [] /\
        cs = filter (has_type ty)
               (conventional (iter_commits_to example_repo (Some (commit_hexsha r))))) /\
    release "1.2.3" Minor example_repo
    = Ok (SemanticVersion.Build 1 3 0 None None,
          title ++ "1.3.0" ++ " " ++ nl ++ nl
          ++ join ""
               (map (fun td =>
                       "## " ++ fst td ++ " " ++ nl ++ nl
                       ++ join nl (map (fun i => "-. " ++ ConventionalCommit.description i)
                                       (snd td))
                       ++ nl ++ nl)
                    raw)).
Proof.
  apply (release_returns_bumped_version_and_document "1.2.3" Minor example_repo
           (SemanticVersion.Build 1 2 3 None None)).
  - reflexivity.
  - discriminate.
  - apply Nat.leb_le. reflexivity.
Defined.

Lemma universal_newlines_app (a b : string) :
  forallb_str not_cr a = true ->
  universal_newlines (a ++ b) = a ++ universal_newlines b.
Proof.
  induction a as [|c a IH]; cbn [append forallb_str]; intros H; [reflexivity|].
  apply andb_true_iff in H as [Hc Ha]. cbn [universal_newlines].
  unfold not_cr in Hc. destruct (Ascii.eqb c CR); [discriminate|].
  now rewrite (IH Ha).
Qed.

Lemma version_text_no_cr (v : SemanticVersion.t) :
  wellformed v -> forallb_str not_cr (SemanticVersion.to_str v) = true.
Proof.
  destruct v as [n1 n2 n3 pre bld]. intros [Hpre Hbld]. simpl in Hpre, Hbld.
  rewrite <- (app_nil_right (SemanticVersion.to_str _)), to_str_text.
  destruct (wellformed_chars pre bld Hpre Hbld) as [Cp Cb].
  assert (D : forall n, forallb_str not_cr (str_of_int n) = true).
  { intros n. apply (forallb_str_weaken is_digit not_cr _ digit_not_cr).
    apply numeric_digits, str_of_int_numeric. }
  rewrite !forallb_str_app, !D, (suffix_not_cr "-" pre eq_refl Cp),
    (suffix_not_cr "+" bld eq_refl Cb).
  reflexivity.
Qed.

(** X20: the version file may end in a line ending of any kind: a file that
    holds the text of a version that [parse] returned, bare or followed by
    LF, by CR LF or by CR, is loaded as that version. *)
Theorem load_reads_any_line_ending
        (s fp ending : string) (fs : Files) (v : SemanticVersion.t) :
  SemanticVersion.parse s = Ok v ->
  In ending [""; nl; String CR nl; String CR ""] ->
  fs fp = Some (SemanticVersion.to_str v ++ ending) ->
  load fp fs = Ran (Ok v).
Proof.
  intros Hp Hending Hfs. pose proof (parse_wellformed s v Hp) as Hw.
  unfold load. rewrite Hfs, (universal_newlines_app _ _ (version_text_no_cr v Hw)).
  f_equal.
  destruct Hending as [<- | [<- | [<- | [<- | []]]]];
    apply (parse_of_to_str v _ Hw); auto.
Qed.

Lemma load_reads_any_line_ending_witness :
  load "VERSION" (write_file "VERSION" ("1.2.3-rc.1" ++ String CR nl) (fun _ => None))
  = Ran (Ok (SemanticVersion.Build 1 2 3 (Some "rc.1") None)).
Proof.
  apply (load_reads_any_line_ending "1.2.3-rc.1" "VERSION" (String CR nl)
           (write_file "VERSION" ("1.2.3-rc.1" ++ String CR nl) (fun _ => None))
           (SemanticVersion.Build 1 2 3 (Some "rc.1") None)).
  - reflexivity.
  - simpl. auto.
  - reflexivity.
Defined.
